(** * PLC operating-state pipeline: syslog_read.py and
      monitor_operating_states_watch.py

    A shallow embedding of the two scripts of the repository.

    - [Text]: Python [str] values as lists of Unicode code points, with the
      string operations the scripts use ([in], [!=], ordering of TEXT columns).
    - [Utf8]: [bytes.decode('utf-8', errors='ignore')].
    - [Regex]: the fragment of [re] that [parse_operating_state] uses.
    - [Store]: the [operating_states] table of the SQLite file.
    - [SyslogRead]: syslog_read.py (the listener).
    - [Monitor]: monitor_operating_states_watch.py (the poller).
    - [Setup]: the start-up of the listener ([init_database], [bind]).

    Everything the scripts take from their environment is an explicit input:
    the datagrams, the clock readings, and whether a database access raises
    [sqlite3.Error]. *)

From Stdlib Require Import List ZArith NArith Lia Bool String Ascii Sorted.
From Stdlib Require Strings.Byte.
Import ListNotations.

Open Scope N_scope.

(* ===================================================================== *)
(** ** Python strings *)

Module Text.

(** A Python [str] is a sequence of Unicode code points. *)
Definition codepoint := N.
Definition pystr := list codepoint.

Definition ord (a : ascii) : codepoint := N_of_ascii a.

(** An ASCII literal of the source as a [pystr]. *)
Definition str_of (s : string) : pystr := map ord (list_ascii_of_string s).

(** The double-quote character, U+0022. *)
Definition dquote : codepoint := 34.

(** [a == b] on [str]. *)
Fixpoint str_eqb (a b : pystr) : bool :=
  match a, b with
  | [], [] => true
  | x :: a', y :: b' => (x =? y) && str_eqb a' b'
  | _, _ => false
  end.

(** [s.startswith(p)]: the comparison [p in s] performs at one position. *)
Fixpoint startswith (s p : pystr) {struct p} : bool :=
  match p with
  | [] => true
  | c :: p' =>
      match s with
      | [] => false
      | x :: s' => (x =? c) && startswith s' p'
      end
  end.

(** [needle in s] for two [str] values: substring containment. *)
Fixpoint contains (needle s : pystr) : bool :=
  startswith s needle
  || match s with
     | [] => false
     | _ :: s' => contains needle s'
     end.

(** Order of two TEXT values under SQLite's default BINARY collation:
    [memcmp] of the UTF-8 encodings, which is the lexicographic order of
    the code point sequences, a proper prefix being smaller. *)
Fixpoint str_compare (a b : pystr) : comparison :=
  match a, b with
  | [], [] => Eq
  | [], _ :: _ => Lt
  | _ :: _, [] => Gt
  | x :: a', y :: b' =>
      match x ?= y with
      | Eq => str_compare a' b'
      | c => c
      end
  end.

Definition str_ltb (a b : pystr) : bool :=
  match str_compare a b with Lt => true | _ => false end.

Definition str_lt (a b : pystr) : Prop := str_compare a b = Lt.

End Text.

(* ===================================================================== *)
(** ** UTF-8 decoding with [errors='ignore'] *)

Module Utf8.
Import Text.

(** [IS_CONTINUATION_BYTE]: 0x80 <= b < 0xC0. *)
Definition is_continuation (b : N) : bool := (0x80 <=? b) && (b <? 0xC0).

(** Second byte of a three-byte sequence that cannot continue lead [ch]:
    not a continuation byte, an overlong form (E0 80..9F) or a surrogate
    (ED A0..BF). *)
Definition bad_second3 (ch ch2 : N) : bool :=
  negb (is_continuation ch2)
  || (if ch2 <? 0xA0 then ch =? 0xE0 else ch =? 0xED).

(** Second byte of a four-byte sequence that cannot continue lead [ch]:
    not a continuation byte, an overlong form (F0 80..8F) or a value above
    U+10FFFF (F4 90..BF). *)
Definition bad_second4 (ch ch2 : N) : bool :=
  negb (is_continuation ch2)
  || (if ch2 <? 0x90 then ch =? 0xF0 else ch =? 0xF4).

(** The decoder of CPython, on byte values.  A well-formed sequence yields
    its code point.  With the [ignore] handler an error yields nothing and
    decoding resumes after the bytes the error covers: one byte for an
    invalid start byte, the lead and the continuation bytes read so far for
    an invalid continuation byte, and everything up to the end for a
    sequence the end of the data cuts short. *)
Fixpoint decode_values (s : list N) : pystr :=
  match s with
  | [] => []
  | ch :: t1 =>
      if ch <? 0x80 then ch :: decode_values t1
      else if ch <? 0xC2 then decode_values t1
      else if ch <? 0xE0 then
        match t1 with
        | [] => []
        | ch2 :: t2 =>
            if negb (is_continuation ch2) then decode_values t1
            else (N.shiftl ch 6 + ch2 - (N.shiftl 0xC0 6 + 0x80))
                   :: decode_values t2
        end
      else if ch <? 0xF0 then
        match t1 with
        | [] => []
        | ch2 :: t2 =>
            if bad_second3 ch ch2 then decode_values t1
            else
              match t2 with
              | [] => []
              | ch3 :: t3 =>
                  if negb (is_continuation ch3) then decode_values t2
                  else (N.shiftl ch 12 + N.shiftl ch2 6 + ch3
                        - (N.shiftl 0xE0 12 + N.shiftl 0x80 6 + 0x80))
                         :: decode_values t3
              end
        end
      else if ch <? 0xF5 then
        match t1 with
        | [] => []
        | ch2 :: t2 =>
            if bad_second4 ch ch2 then decode_values t1
            else
              match t2 with
              | [] => []
              | ch3 :: t3 =>
                  if negb (is_continuation ch3) then decode_values t2
                  else
                    match t3 with
                    | [] => []
                    | ch4 :: t4 =>
                        if negb (is_continuation ch4) then decode_values t3
                        else (N.shiftl ch 18 + N.shiftl ch2 12
                              + N.shiftl ch3 6 + ch4
                              - (N.shiftl 0xF0 18 + N.shiftl 0x80 12
                                 + N.shiftl 0x80 6 + 0x80))
                               :: decode_values t4
                    end
              end
        end
      else decode_values t1
  end.

(** The values of a [bytes] object. *)
Definition byte_values (data : list Byte.byte) : list N := map Byte.to_N data.

(** [data.decode('utf-8', errors='ignore')]. *)
Definition decode (data : list Byte.byte) : pystr :=
  decode_values (byte_values data).

(** The [bytes] literal of an ASCII string. *)
Definition bytes_of (s : string) : list Byte.byte :=
  map byte_of_ascii (list_ascii_of_string s).

End Utf8.

(* ===================================================================== *)
(** ** The regular expression of [parse_operating_state] *)

Module Regex.
Import Text.

Definition in_range (lo hi c : codepoint) : bool := (lo <=? c) && (c <=? hi).

(** [0-9A-Za-z]. *)
Definition ascii_alnum (c : codepoint) : bool :=
  in_range 48 57 c || in_range 65 90 c || in_range 97 122 c.

(** The items of a pattern: a literal character, and the capturing group
    [(\w+)]. *)
Inductive re_item : Type :=
| Lit (c : codepoint)
| GroupWordPlus.

Section WordClass.

(** The alphanumeric property of the Unicode database on the code points
    from U+0080 on ([str.isalnum] of a one-character string).  The table
    belongs to the Python runtime, not to the repository. *)
Variable unicode_alnum : codepoint -> bool.

(** [Py_UNICODE_ISALNUM]. *)
Definition isalnum (c : codepoint) : bool :=
  if c <? 128 then ascii_alnum c else unicode_alnum c.

(** The class [\w] of a [str] pattern compiled without [re.ASCII]:
    alphanumeric in the Unicode sense, or the underscore. *)
Definition is_word (c : codepoint) : bool := isalnum c || (c =? 95).

(** The longest run of word characters at the start of [s]. *)
Fixpoint word_run (s : pystr) : nat :=
  match s with
  | [] => O
  | c :: s' => if is_word c then S (word_run s') else O
  end.

(** Greedy [+] with backtracking: give the group the first [n] characters,
    then [n-1], ..., down to one, until the rest of the pattern [k]
    matches. *)
Fixpoint backtrack (k : pystr -> pystr -> option pystr) (s : pystr) (n : nat)
  : option pystr :=
  match n with
  | O => None
  | S n' =>
      match k (firstn n s) (skipn n s) with
      | Some g => Some g
      | None => backtrack k s n'
      end
  end.

(** Match pattern [p] at the start of [s]; [g] is the text of group 1 so
    far.  Returns group 1 of the match. *)
Fixpoint match_here (p : list re_item) (s : pystr) (g : pystr) : option pystr :=
  match p with
  | [] => Some g
  | Lit c :: p' =>
      match s with
      | [] => None
      | x :: s' => if x =? c then match_here p' s' g else None
      end
  | GroupWordPlus :: p' =>
      backtrack (fun w rest => match_here p' rest w) s (word_run s)
  end.

(** [re.search(p, s)]: the match at the leftmost position that has one,
    reduced to its group 1. *)
Fixpoint re_search (p : list re_item) (s : pystr) : option pystr :=
  match match_here p s [] with
  | Some g => Some g
  | None =>
      match s with
      | [] => None
      | _ :: s' => re_search p s'
      end
  end.

End WordClass.

(** The alphanumeric code points of the Latin-1 Supplement block
    (U+0080..U+00FF) as the Unicode database has them: the letters, the
    superscript digits and the vulgar fractions.  Outside that block the
    table is left empty. *)
Definition latin1_alnum (c : codepoint) : bool :=
  (c =? 0xAA) || (c =? 0xB2) || (c =? 0xB3) || (c =? 0xB5) || (c =? 0xB9)
  || (c =? 0xBA) || in_range 0xBC 0xBE c
  || in_range 0xC0 0xD6 c || in_range 0xD8 0xF6 c || in_range 0xF8 0xFF c.

End Regex.

(* ===================================================================== *)
(** ** The [operating_states] table *)

Module Store.
Import Text.

(** A row: [(timestamp, ip_address, port, operating_state)]. *)
Record row : Type := mkRow {
  timestamp : pystr;
  ip_address : pystr;
  port : Z;
  operating_state : pystr
}.

(** The table, rows in insertion (rowid) order. *)
Definition table := list row.

(** Whether a database access goes through or raises [sqlite3.Error]. *)
Inductive db_status : Type :=
| Available
| Failing.

(** [INSERT INTO operating_states ... VALUES (?, ?, ?, ?)]. *)
Definition insert (r : row) (t : table) : table := t ++ [r].

(** [SELECT COUNT( * ) FROM operating_states]. *)
Definition count (t : table) : Z := Z.of_nat (List.length t).

(** The row that leads [t] sorted by timestamp, descending, when [best]
    leads the rows scanned so far; of rows with equal timestamps the one
    inserted first stays in front. *)
Fixpoint leading (best : row) (t : table) : row :=
  match t with
  | [] => best
  | r :: t' =>
      if str_ltb (timestamp best) (timestamp r)
      then leading r t'
      else leading best t'
  end.

(** [SELECT ... ORDER BY timestamp DESC LIMIT 1], then [fetchone()]. *)
Definition select_latest (t : table) : option row :=
  match t with
  | [] => None
  | r :: t' => Some (leading r t')
  end.

End Store.

(* ===================================================================== *)
(** ** syslog_read.py *)

Module SyslogRead.
Import Text Utf8 Regex Store.

(** The records the listener hands to [logging]; the text of a line is
    kept only where it names a state or a row. *)
Inductive log_record : Type :=
| Info_operating_state (state ip : pystr) (port : Z)
| Info_logged (r : row)
| Error_log_to_database
| Info_no_state_found
| Debug_ignored
| Error_processing.

(** [log_to_database(ip_address, port, operating_state)].  [now] is what
    [datetime.now().isoformat()] returns; under [Failing] the access raises
    [sqlite3.Error], nothing is inserted and the handler logs the error. *)
Definition log_to_database (db : db_status) (now : pystr)
    (ip_address : pystr) (port : Z) (operating_state : pystr) (t : table)
  : table * list log_record :=
  match db with
  | Available =>
      let r := mkRow now ip_address port operating_state in
      (insert r t, [Info_logged r])
  | Failing => (t, [Error_log_to_database])
  end.

(** The pattern [newState="(\w+)"]. *)
Definition newState_pattern : list re_item :=
  map Lit (str_of "newState=") ++ [Lit dquote; GroupWordPlus; Lit dquote].

(** [relevant_messages = ["SE_OPMOD_CHANGED"]]. *)
Definition relevant_messages : list pystr := [str_of "SE_OPMOD_CHANGED"].

(** What one [recvfrom] brings, with the clock reading and the state of the
    database the iteration meets. *)
Record arrival : Type := mkArrival {
  data : list Byte.byte;
  addr : pystr * Z;
  now : pystr;
  db : db_status
}.

(** The variables of [start_syslog_server] and the table it writes. *)
Record server : Type := mkServer {
  current_state : pystr;
  db_table : table;
  log : list log_record
}.

(** One turn of the receive loop: a datagram, or an exception other than
    [KeyboardInterrupt] raised by [recvfrom]. *)
Inductive event : Type :=
| Datagram (a : arrival)
| Recv_error.

Section Listener.

Variable unicode_alnum : codepoint -> bool.

(** [parse_operating_state(message)]. *)
Definition parse_operating_state (message : pystr) : option pystr :=
  match re_search unicode_alnum newState_pattern message with
  | Some group1 => Some group1
  | None => None
  end.

(** The body of the [try] for one datagram.  [if new_state:] holds for a
    non-empty string only. *)
Definition process (a : arrival) (sv : server) : server :=
  let message := decode (data a) in
  if existsb (fun msg => contains msg message) relevant_messages then
    match parse_operating_state message with
    | Some (c :: w) =>
        let new_state := c :: w in
        let '(t, l) :=
          log_to_database (db a) (now a) (fst (addr a)) (snd (addr a))
            new_state (db_table sv) in
        {| current_state := new_state;
           db_table := t;
           log := log sv
                    ++ Info_operating_state new_state (fst (addr a)) (snd (addr a))
                    :: l |}
    | _ =>
        {| current_state := current_state sv;
           db_table := db_table sv;
           log := log sv ++ [Info_no_state_found] |}
    end
  else
    {| current_state := current_state sv;
       db_table := db_table sv;
       log := log sv ++ [Debug_ignored] |}.

(** One iteration of [while True]. *)
Definition iteration (e : event) (sv : server) : server :=
  match e with
  | Datagram a => process a sv
  | Recv_error =>
      {| current_state := current_state sv;
         db_table := db_table sv;
         log := log sv ++ [Error_processing] |}
  end.

(** The receive loop over the events that reach it, in order, up to the
    [KeyboardInterrupt] that ends it. *)
Fixpoint receive_loop (events : list event) (sv : server) : server :=
  match events with
  | [] => sv
  | e :: rest => receive_loop rest (iteration e sv)
  end.

(** [start_syslog_server]: after a successful [bind] the loop starts with
    [current_state = "UNKNOWN"] on the table of the database file. *)
Definition start_syslog_server (events : list event) (t : table) : server :=
  receive_loop events
    {| current_state := str_of "UNKNOWN"; db_table := t; log := [] |}.

End Listener.

End SyslogRead.

(* ===================================================================== *)
(** ** monitor_operating_states_watch.py *)

Module Monitor.
Import Text Store.

(** What the poller writes to the console.  [Display r] stands for
    [clear_console()] followed by the seven lines that show row [r]. *)
Inductive output : Type :=
| Print_query_error
| Print_count_error
| Display (r : row)
| Print_db_missing
| Print_starting.

(** What one database access meets: whether it raises, and the table at
    that moment. *)
Definition read : Type := db_status * table.

(** [query_latest_state()]. *)
Definition query_latest_state (rd : read) : option row * list output :=
  match fst rd with
  | Available => (select_latest (snd rd), [])
  | Failing => (None, [Print_query_error])
  end.

(** [get_record_count()]. *)
Definition get_record_count (rd : read) : Z * list output :=
  match fst rd with
  | Available => (count (snd rd), [])
  | Failing => ((-1)%Z, [Print_count_error])
  end.

(** The two local variables of [main]. *)
Record session : Type := mkSession {
  last_record_count : Z;
  last_state : option row
}.

(** The database as the two reads of one iteration meet it. *)
Record tick : Type := mkTick {
  count_read : read;
  latest_read : read
}.

(** The body of the [try] of one iteration of [while True]. *)
Definition iteration (k : tick) (s : session) : session * list output :=
  let '(current_record_count, o1) := get_record_count (count_read k) in
  if ((last_record_count s <? current_record_count)
      && (0 <? current_record_count))%Z
  then
    let '(current_state, o2) := query_latest_state (latest_read k) in
    match current_state with
    | Some cs =>
        if match last_state s with
           | None => true
           | Some ls =>
               negb (str_eqb (timestamp cs) (timestamp ls))
               || negb (str_eqb (operating_state cs) (operating_state ls))
           end
        then
          ({| last_record_count := current_record_count;
              last_state := Some cs |},
           o1 ++ o2 ++ [Display cs])
        else
          ({| last_record_count := current_record_count;
              last_state := last_state s |},
           o1 ++ o2)
    | None =>
        ({| last_record_count := current_record_count;
            last_state := last_state s |},
         o1 ++ o2)
    end
  else (s, o1).

(** The loop over the iterations that run before [KeyboardInterrupt]
    ends it.  The two reads catch [sqlite3.Error] themselves, so the
    handler for other exceptions is not entered. *)
Fixpoint main_loop (ticks : list tick) (s : session) : session * list output :=
  match ticks with
  | [] => (s, [])
  | k :: rest =>
      let '(s1, o1) := iteration k s in
      let '(s2, o2) := main_loop rest s1 in
      (s2, o1 ++ o2)
  end.

(** The session [main] enters its loop with. *)
Definition startup (rd : read) : session * list output :=
  let '(c, o) := get_record_count rd in
  ({| last_record_count := c; last_state := None |}, o).

(** [main()]. *)
Definition main (db_file_exists : bool) (start : read) (ticks : list tick)
  : list output :=
  if db_file_exists then
    let '(s0, o0) := startup start in
    Print_starting :: o0 ++ snd (main_loop ticks s0)
  else [Print_db_missing].

(** The rows shown, in order. *)
Fixpoint notifications (o : list output) : list row :=
  match o with
  | [] => []
  | Display r :: o' => r :: notifications o'
  | _ :: o' => notifications o'
  end.

(** A tick on which both reads go through and meet the same table. *)
Definition quiet (t : table) : tick :=
  {| count_read := (Available, t); latest_read := (Available, t) |}.

End Monitor.

(* ===================================================================== *)
(** ** Sample traffic *)

Module Examples.
Import Text Utf8 Regex Store SyslogRead Monitor.

(** The controller of the end-to-end scenarios, [10.0.0.5:555]. *)
Definition plc : pystr * Z := (str_of "10.0.0.5", 555%Z).

Definition quoted (s : string) : list Byte.byte :=
  [Byte.x22] ++ bytes_of s ++ [Byte.x22].

(** [b'<14>SE_OPMOD_CHANGED newState="RUN" oldState="STOP" newState="HALT"']. *)
Definition run_datagram : list Byte.byte :=
  bytes_of "<14>SE_OPMOD_CHANGED newState=" ++ quoted "RUN"
  ++ bytes_of " oldState=" ++ quoted "STOP"
  ++ bytes_of " newState=" ++ quoted "HALT".

(** [b'<14>SE_OPMOD_CHANGED state changed'], the marker without the field. *)
Definition fieldless_datagram : list Byte.byte :=
  bytes_of "<14>SE_OPMOD_CHANGED state changed".

(** [b'<14>SE_LOGIN newState="RUN"'], the field without the marker. *)
Definition login_datagram : list Byte.byte :=
  bytes_of "<14>SE_LOGIN newState=" ++ quoted "RUN".

(** [b'SE_OPMOD\xff_CHANGED newState="RUN"']: the byte 0xFF splits the
    marker and is not valid anywhere in UTF-8. *)
Definition split_marker_datagram : list Byte.byte :=
  bytes_of "SE_OPMOD" ++ [Byte.xff] ++ bytes_of "_CHANGED newState="
  ++ quoted "RUN".

(** [b'SE_OPMOD_CHANGED newState="\xc3\xa9"']: the token is U+00E9, a
    lower-case e with acute accent. *)
Definition accent_datagram : list Byte.byte :=
  bytes_of "SE_OPMOD_CHANGED newState="
  ++ [Byte.x22; Byte.xc3; Byte.xa9; Byte.x22].

Definition ts1 : pystr := str_of "2024-05-01T10:00:00.250000".
Definition ts2 : pystr := str_of "2024-05-01T10:00:01".
Definition ts3 : pystr := str_of "2024-05-01T10:00:01.000300".

Definition arrives (d : list Byte.byte) (t : pystr) (s : db_status) : arrival :=
  {| data := d; addr := plc; now := t; db := s |}.

Definition idle : server :=
  {| current_state := str_of "UNKNOWN"; db_table := []; log := [] |}.

Definition row1 : row := mkRow ts1 (fst plc) (snd plc) (str_of "RUN").
Definition row2 : row := mkRow ts2 (fst plc) (snd plc) (str_of "STOP").
Definition row3 : row := mkRow ts3 (fst plc) (snd plc) (str_of "STOP").

End Examples.

(* ===================================================================== *)
(** ** Vocabulary of the specification *)

Module Vocabulary.
Import Text Regex Store SyslogRead Monitor.

(** The relevance marker. *)
Definition marker : pystr := str_of "SE_OPMOD_CHANGED".

(** The token class the specification names, [A-Za-z0-9_]. *)
Definition ascii_word (c : codepoint) : bool := ascii_alnum c || (c =? 95).

Section Fragments.

Variable unicode_alnum : codepoint -> bool.

(** [s] opens with [newState="X"], [X] a non-empty run of word
    characters. *)
Definition opens_with_fragment (X s : pystr) : Prop :=
  X <> [] /\ Forall (fun c => is_word unicode_alnum c = true) X
  /\ exists post, s = str_of "newState=" ++ dquote :: X ++ dquote :: post.

(** [message] holds the fragment for [X] right after [pre]. *)
Definition fragment_at (pre X message : pystr) : Prop :=
  exists rest, message = pre ++ rest /\ opens_with_fragment X rest.

End Fragments.

(** Timestamps grow strictly from each row to the next one inserted. *)
Definition increasing (t : table) : Prop :=
  Sorted (fun a b => str_lt (timestamp a) (timestamp b)) t.

(** [rows], inserted one after the other by calls of [log_to_database]
    that all go through; each row holds the arguments and the clock
    reading of its call. *)
Definition appended (rows : list row) (t : table) : table :=
  fold_left
    (fun acc r =>
       fst (SyslogRead.log_to_database Available (timestamp r) (ip_address r)
              (port r) (operating_state r) acc))
    rows t.

Local Open Scope Z_scope.

(** What [get_record_count()] and [query_latest_state()] return on a
    tick. *)
Definition count_value (k : tick) : Z := fst (get_record_count (count_read k)).
Definition latest_value (k : tick) : option row :=
  fst (query_latest_state (latest_read k)).

(** Row [r] differs from the row shown last in its timestamp or in its
    state, or no row was shown yet. *)
Definition changed (r : row) (shown : option row) : Prop :=
  match shown with
  | None => True
  | Some l =>
      timestamp r <> timestamp l \/ operating_state r <> operating_state l
  end.

(** No two neighbours of the list agree on both timestamp and state. *)
Fixpoint no_repeat (l : list row) : Prop :=
  match l with
  | [] => True
  | a :: tl =>
      match tl with
      | [] => True
      | b :: _ =>
          (timestamp a, operating_state a) <> (timestamp b, operating_state b)
      end
      /\ no_repeat tl
  end.

(** A tick that meets table [t] at both reads, each of which may raise. *)
Definition on_table (t : table) (d : db_status * db_status) : tick :=
  {| count_read := (fst d, t); latest_read := (snd d, t) |}.

(** The guard of an iteration: the count read exceeds the count seen last
    and is positive. *)
Definition guard (k : tick) (s : session) : Prop :=
  last_record_count s < count_value k /\ 0 < count_value k.

(** The row shown last, as a list of at most one row. *)
Definition shown_last (s : session) : list row :=
  match last_state s with
  | None => []
  | Some l => [l]
  end.

End Vocabulary.

(* ===================================================================== *)
(** ** syslog_read.py: start-up of the server *)

Module Setup.
Import Text Utf8 Regex Store SyslogRead.

(** The database file: [None] while it holds no [operating_states]
    table. *)
Definition database : Type := option table.

(** The records [init_database] and the start of [start_syslog_server]
    hand to [logging]. *)
Inductive setup_record : Type :=
| Info_database_initialized
| Error_initialize_database
| Info_server_started
| Error_permission_denied
| Error_start_failed.

(** [init_database()]: [CREATE TABLE IF NOT EXISTS]; under [Failing] the
    access raises [sqlite3.Error], which is logged and not raised
    again. *)
Definition init_database (db : db_status) (d : database)
  : database * list setup_record :=
  match db with
  | Available =>
      (Some match d with
            | Some t => t
            | None => []
            end,
       [Info_database_initialized])
  | Failing => (d, [Error_initialize_database])
  end.

(** What [sock.bind] does: it returns, raises [PermissionError], or raises
    another exception. *)
Inductive bind_outcome : Type :=
| Bound
| Permission_error
| Other_error.

(** An event as the loop meets it on database [d]: an [INSERT] into a
    table that does not exist raises [sqlite3.Error]. *)
Definition on_database (d : database) (e : event) : event :=
  match d, e with
  | None, Datagram a =>
      Datagram {| data := data a; addr := addr a; now := now a;
                  db := Failing |}
  | _, _ => e
  end.

(** What a run of [start_syslog_server] leaves: the records of the
    start-up, the database, and the loop's variables if the loop was
    entered. *)
Record outcome : Type := mkOutcome {
  setup_log : list setup_record;
  final_database : database;
  served : option server
}.

Section Server.

Variable unicode_alnum : codepoint -> bool.

(** [start_syslog_server(host, port)] from its first line: the database
    is initialised, the socket is bound, and only then the loop runs. *)
Definition start_syslog_server (init : db_status) (bind : bind_outcome)
    (events : list event) (d : database) : outcome :=
  let '(d1, l1) := init_database init d in
  match bind with
  | Bound =>
      let sv :=
        receive_loop unicode_alnum (map (on_database d1) events)
          {| current_state := str_of "UNKNOWN";
             db_table := match d1 with
                         | Some t => t
                         | None => []
                         end;
             log := [] |} in
      {| setup_log := l1 ++ [Info_server_started];
         final_database := match d1 with
                           | Some _ => Some (db_table sv)
                           | None => None
                           end;
         served := Some sv |}
  | Permission_error =>
      {| setup_log := l1 ++ [Error_permission_denied];
         final_database := d1;
         served := None |}
  | Other_error =>
      {| setup_log := l1 ++ [Error_start_failed];
         final_database := d1;
         served := None |}
  end.

End Server.

End Setup.

(* ===================================================================== *)
(** ** Vocabulary of whole runs *)

Module RunVocabulary.
Import Text Utf8 Regex Store SyslogRead Monitor Vocabulary.

(** The values below 0x80 of a sequence, in order. *)
Definition ascii_part (s : list N) : list N := filter (fun b => b <? 128) s.

Definition option_list {A : Type} (o : option A) : list A :=
  match o with
  | Some x => [x]
  | None => []
  end.

Section Listener.

Variable unicode_alnum : codepoint -> bool.

(** The token a datagram carries: its text passes the relevance check and
    holds a fragment. *)
Definition token_of (a : arrival) : option pystr :=
  if contains marker (decode (data a))
  then parse_operating_state unicode_alnum (decode (data a))
  else None.

(** The row a datagram is due: its token with the sender's address and
    the clock reading, when the insert goes through. *)
Definition row_of (a : arrival) : option row :=
  match token_of a, db a with
  | Some X, Available =>
      Some (mkRow (now a) (fst (addr a)) (snd (addr a)) X)
  | _, _ => None
  end.

Definition rows_of (events : list event) : list row :=
  flat_map (fun e => match e with
                     | Datagram a => option_list (row_of a)
                     | Recv_error => []
                     end) events.

Definition tokens_of (events : list event) : list pystr :=
  flat_map (fun e => match e with
                     | Datagram a => option_list (token_of a)
                     | Recv_error => []
                     end) events.

End Listener.

(** The rows the log reports as written to the database, in order. *)
Fixpoint logged_rows (l : list log_record) : list row :=
  match l with
  | [] => []
  | Info_logged r :: l' => r :: logged_rows l'
  | _ :: l' => logged_rows l'
  end.

(** Each table of the list extends the one before it, starting from [t],
    and has growing timestamps. *)
Fixpoint grows (t : table) (tables : list table) : Prop :=
  match tables with
  | [] => True
  | t' :: rest =>
      (exists extra, t' = t ++ extra) /\ increasing t' /\ grows t' rest
  end.

(** The ticks that meet the given tables, each read going through or
    raising as given. *)
Definition ticks_on (l : list (table * (db_status * db_status))) : list tick :=
  map (fun td => on_table (fst td) (snd td)) l.

(** The ticks of a poller that polls after every insert: one tick on the
    table after each of [rows] has been appended to [t], all reads going
    through. *)
Fixpoint tick_after_each (t : table) (rows : list row) : list tick :=
  match rows with
  | [] => []
  | r :: rest => quiet (t ++ [r]) :: tick_after_each (t ++ [r]) rest
  end.

End RunVocabulary.

(* ===================================================================== *)
(** * Properties *)

(** ** Strings *)

Module TextFacts.
Import Text.

Lemma str_eqb_eq (a b : pystr) : str_eqb a b = true <-> a = b.
Proof.
  revert b; induction a as [|x a IH]; intros [|y b]; simpl;
    try (split; [discriminate | discriminate]); try tauto.
  rewrite andb_true_iff, N.eqb_eq, IH. split.
  - intros [-> ->]; reflexivity.
  - intros E; injection E; auto.
Qed.

Lemma str_eqb_neq (a b : pystr) : str_eqb a b = false <-> a <> b.
Proof.
  rewrite <- str_eqb_eq. destruct (str_eqb a b); split; congruence.
Qed.

Lemma startswith_prefix (s p : pystr) :
  startswith s p = true <-> exists rest, s = p ++ rest.
Proof.
  revert s; induction p as [|c p IH]; intros s; simpl.
  - split; [intros _; exists s; reflexivity | trivial].
  - destruct s as [|x s].
    + split; [discriminate | intros [r E]; discriminate].
    + rewrite andb_true_iff, N.eqb_eq, IH. split.
      * intros [-> [r ->]]. exists r; reflexivity.
      * intros [r E]. injection E as -> ->. split; [reflexivity | now exists r].
Qed.

Lemma startswith_app (p rest : pystr) : startswith (p ++ rest) p = true.
Proof. apply startswith_prefix. now exists rest. Qed.

Lemma contains_infix (needle s : pystr) :
  contains needle s = true <-> exists pre post, s = pre ++ needle ++ post.
Proof.
  induction s as [|x s IH]; simpl.
  - rewrite orb_false_r, startswith_prefix. split.
    + intros [r E]. exists [], r. exact E.
    + intros [pre [post E]]. destruct pre; [|discriminate].
      now exists post.
  - rewrite orb_true_iff, startswith_prefix, IH. split.
    + intros [[r E] | [pre [post E]]].
      * exists [], r. exact E.
      * exists (x :: pre), post. simpl. now rewrite E.
    + intros [[|y pre] [post E]].
      * left. now exists post.
      * right. injection E as _ E. now exists pre, post.
Qed.

Lemma contains_false_no_infix (needle s pre post : pystr) :
  contains needle s = false -> s <> pre ++ needle ++ post.
Proof.
  intros H E.
  assert (C : contains needle s = true) by (apply contains_infix; eauto).
  congruence.
Qed.

(** The order of TEXT values is a strict total order. *)

Lemma str_compare_refl (a : pystr) : str_compare a a = Eq.
Proof.
  induction a as [|x a IH]; simpl; [reflexivity|].
  now rewrite N.compare_refl.
Qed.

Lemma str_compare_eq (a b : pystr) : str_compare a b = Eq -> a = b.
Proof.
  revert b; induction a as [|x a IH]; intros [|y b]; simpl;
    try discriminate; [reflexivity|].
  destruct (x ?= y) eqn:C; try discriminate.
  apply N.compare_eq in C. intros H. now rewrite C, (IH b H).
Qed.

Lemma str_compare_antisym (a b : pystr) :
  str_compare b a = CompOpp (str_compare a b).
Proof.
  revert b; induction a as [|x a IH]; intros [|y b]; simpl; try reflexivity.
  rewrite (N.compare_antisym x y).
  destruct (x ?= y); simpl; auto.
Qed.

Lemma str_lt_trans (a b c : pystr) : str_lt a b -> str_lt b c -> str_lt a c.
Proof.
  unfold str_lt. revert b c.
  induction a as [|x a IH]; intros [|y b] [|z c]; simpl;
    try discriminate; try reflexivity.
  destruct (x ?= y) eqn:Cxy; try discriminate;
    destruct (y ?= z) eqn:Cyz; try discriminate; intros H1 H2.
  - apply N.compare_eq in Cxy, Cyz. subst. rewrite N.compare_refl.
    eapply IH; eauto.
  - apply N.compare_eq in Cxy. subst. now rewrite Cyz.
  - apply N.compare_eq in Cyz. subst. now rewrite Cxy.
  - rewrite N.compare_lt_iff in Cxy, Cyz.
    assert (L : x < z) by lia. apply N.compare_lt_iff in L. now rewrite L.
Qed.

Lemma str_lt_irrefl (a : pystr) : ~ str_lt a a.
Proof. unfold str_lt. rewrite str_compare_refl. discriminate. Qed.

Lemma str_ltb_lt (a b : pystr) : str_ltb a b = true <-> str_lt a b.
Proof.
  unfold str_ltb, str_lt. destruct (str_compare a b); split; congruence.
Qed.

(** [a <= b] read off [str_ltb]: [b] is not below [a]. *)
Lemma str_not_ltb_cases (a b : pystr) :
  str_ltb a b = false -> a = b \/ str_lt b a.
Proof.
  unfold str_ltb, str_lt. rewrite (str_compare_antisym a b).
  destruct (str_compare a b) eqn:C; simpl; try discriminate; intros _.
  - left. now apply str_compare_eq.
  - right. reflexivity.
Qed.

End TextFacts.
(** ** The parser *)

Module ParserFacts.
Import Text Regex Store SyslogRead Vocabulary TextFacts.

Section Parser.

Variable unicode_alnum : codepoint -> bool.

Local Abbreviation word := (is_word unicode_alnum).
Local Abbreviation all_word := (Forall (fun c => is_word unicode_alnum c = true)).
Local Abbreviation opens_with_fragment :=
  (Vocabulary.opens_with_fragment unicode_alnum).
Local Abbreviation fragment_at := (Vocabulary.fragment_at unicode_alnum).

(** The closing quote is not a word character, whatever the Unicode table. *)
Lemma dquote_not_word : word dquote = false.
Proof. reflexivity. Qed.

Lemma match_here_lits (k : pystr) (p : list re_item) (s g : pystr) :
  match_here unicode_alnum (map Lit k ++ p) s g
  = if startswith s k
    then match_here unicode_alnum p (skipn (List.length k) s) g
    else None.
Proof.
  revert s; induction k as [|c k IH]; intros s; simpl; [reflexivity|].
  destruct s as [|x s]; [reflexivity|].
  destruct (x =? c); simpl; [apply IH | reflexivity].
Qed.

Lemma word_run_le (s : pystr) : (word_run unicode_alnum s <= List.length s)%nat.
Proof.
  induction s as [|c s IH]; simpl; [lia|].
  destruct (word c); simpl; lia.
Qed.

Lemma word_run_firstn (s : pystr) :
  all_word (firstn (word_run unicode_alnum s) s).
Proof.
  induction s as [|c s IH]; simpl; [constructor|].
  destruct (word c) eqn:W; simpl; constructor; assumption.
Qed.

(** Past the run stands the end of the text or a character outside [\w]. *)
Lemma word_run_skipn (s : pystr) :
  match skipn (word_run unicode_alnum s) s with
  | [] => True
  | c :: _ => word c = false
  end.
Proof.
  induction s as [|c s IH]; simpl; [exact I|].
  destruct (word c) eqn:W; simpl; assumption.
Qed.

(** Inside the run every position holds a word character. *)
Lemma skipn_inside_run (s : pystr) (n : nat) :
  (n < word_run unicode_alnum s)%nat ->
  exists c r, skipn n s = c :: r /\ word c = true.
Proof.
  revert n; induction s as [|c s IH]; intros n; simpl; [lia|].
  destruct (word c) eqn:W; [|lia].
  destruct n as [|n]; simpl.
  - intros _. now exists c, s.
  - intros L. apply IH. lia.
Qed.

Lemma word_run_app (X rest : pystr) :
  all_word X ->
  match rest with [] => True | c :: _ => word c = false end ->
  word_run unicode_alnum (X ++ rest) = List.length X.
Proof.
  intros HX Hrest. induction HX as [|c X Hc HX IH]; simpl.
  - destruct rest as [|c r]; simpl; [reflexivity | now rewrite Hrest].
  - now rewrite Hc, IH.
Qed.

Lemma match_here_lit (c x : codepoint) (p : list re_item) (s g : pystr) :
  match_here unicode_alnum (Lit c :: p) (x :: s) g
  = if x =? c then match_here unicode_alnum p s g else None.
Proof. reflexivity. Qed.

Lemma match_here_group (p : list re_item) (s g : pystr) :
  match_here unicode_alnum (GroupWordPlus :: p) s g
  = backtrack (fun w rest => match_here unicode_alnum p rest w) s
      (word_run unicode_alnum s).
Proof. reflexivity. Qed.

(** What remains of the pattern after the group: the closing quote. *)
Lemma match_here_closing (rest w : pystr) :
  match_here unicode_alnum [Lit dquote] rest w
  = match rest with
    | [] => None
    | c :: _ => if c =? dquote then Some w else None
    end.
Proof. destruct rest as [|c r]; reflexivity. Qed.

(** Backtracking never helps: a shorter group is followed by a word
    character, never by the closing quote. *)
Lemma backtrack_inside_run (s : pystr) (n : nat) :
  (n < word_run unicode_alnum s)%nat ->
  backtrack (fun w rest => match_here unicode_alnum [Lit dquote] rest w) s n
  = None.
Proof.
  induction n as [|n IH]; intros L; [reflexivity|].
  cbn [backtrack]. rewrite match_here_closing.
  destruct (skipn_inside_run s (S n) L) as [c [r [E W]]]. rewrite E.
  destruct (c =? dquote) eqn:Q.
  - apply N.eqb_eq in Q. subst c. rewrite dquote_not_word in W. discriminate.
  - apply IH. lia.
Qed.

(** The group and the closing quote match at the start of [s] exactly
    when [s] opens with a non-empty run of word characters that a quote
    closes; group 1 is that run. *)
Lemma group_quote_spec (s g X : pystr) :
  match_here unicode_alnum [GroupWordPlus; Lit dquote] s g = Some X
  <-> X <> [] /\ all_word X /\ exists post, s = X ++ dquote :: post.
Proof.
  rewrite match_here_group. split.
  - destruct (word_run unicode_alnum s) as [|n] eqn:R; [discriminate|].
    cbn [backtrack]. rewrite match_here_closing.
    pose proof (firstn_skipn (S n) s) as FS.
    pose proof (word_run_firstn s) as FW. rewrite R in FW.
    destruct (skipn (S n) s) as [|c post] eqn:K.
    + rewrite backtrack_inside_run by lia. discriminate.
    + destruct (c =? dquote) eqn:Q.
      * apply N.eqb_eq in Q. subst c. intros [= <-]. repeat split.
        -- destruct s; [simpl in R; discriminate | discriminate].
        -- exact FW.
        -- exists post. symmetry. exact FS.
      * rewrite backtrack_inside_run by lia. discriminate.
  - intros [NE [HX [post ->]]].
    rewrite (word_run_app X (dquote :: post) HX dquote_not_word).
    destruct X as [|c X]; [congruence|].
    cbn [List.length backtrack]. rewrite match_here_closing.
    change (S (List.length X)) with (List.length (c :: X)).
    rewrite skipn_app, skipn_all, Nat.sub_diag, firstn_app, firstn_all,
      Nat.sub_diag.
    simpl. now rewrite app_nil_r.
Qed.

(** *** Well-formed fragments *)

(** The pattern matches at the start of [s] exactly when [s] opens with a
    fragment, and group 1 is its token. *)
Lemma newState_pattern_spec (s X : pystr) :
  match_here unicode_alnum newState_pattern s [] = Some X
  <-> opens_with_fragment X s.
Proof.
  unfold newState_pattern, Vocabulary.opens_with_fragment.
  rewrite match_here_lits. split.
  - destruct (startswith s (str_of "newState=")) eqn:P; [|discriminate].
    apply startswith_prefix in P. destruct P as [r ->].
    rewrite skipn_app, skipn_all, Nat.sub_diag. cbn [app skipn].
    destruct r as [|x r]; [discriminate|]. rewrite match_here_lit.
    destruct (x =? dquote) eqn:Q; [|discriminate].
    apply N.eqb_eq in Q. subst x. intros M.
    apply group_quote_spec in M. destruct M as [NE [HX [post ->]]].
    repeat split; try assumption. now exists post.
  - intros [NE [HX [post ->]]].
    rewrite startswith_app, skipn_app, skipn_all, Nat.sub_diag.
    cbn [app skipn]. rewrite match_here_lit, N.eqb_refl.
    apply group_quote_spec. repeat split; try assumption. now exists post.
Qed.

(** [re.search] returns the match at the least position that has one. *)
Lemma re_search_some (p : list re_item) (s X : pystr) :
  re_search unicode_alnum p s = Some X
  <-> exists pre rest,
        s = pre ++ rest
        /\ match_here unicode_alnum p rest [] = Some X
        /\ forall pre' rest',
             s = pre' ++ rest' ->
             (List.length pre' < List.length pre)%nat ->
             match_here unicode_alnum p rest' [] = None.
Proof.
  induction s as [|x s IH]; cbn [re_search].
  - split.
    + destruct (match_here unicode_alnum p [] []) eqn:M; [|discriminate].
      intros [= ->]. exists [], []. repeat split; [assumption|].
      simpl. intros; lia.
    + intros [pre [rest [E [M _]]]].
      symmetry in E. apply app_eq_nil in E. destruct E as [-> ->].
      now rewrite M.
  - destruct (match_here unicode_alnum p (x :: s) []) as [g|] eqn:M.
    + split.
      * intros [= ->]. exists [], (x :: s). repeat split; [assumption|].
        simpl. intros; lia.
      * intros [[|y pre] [rest [E [Mr Least]]]].
        -- simpl in E. subst rest. congruence.
        -- specialize (Least [] (x :: s) eq_refl). simpl in Least.
           rewrite Least in M by lia. discriminate.
    + rewrite IH. split.
      * intros [pre [rest [-> [Mr Least]]]].
        exists (x :: pre), rest. repeat split; [assumption|].
        intros [|y pre'] rest' E L.
        -- simpl in E. subst rest'. exact M.
        -- injection E as <- E. apply (Least pre' rest' E). simpl in L. lia.
      * intros [[|y pre] [rest [E [Mr Least]]]].
        -- simpl in E. subst rest. congruence.
        -- injection E as <- E. exists pre, rest. repeat split; try assumption.
           intros pre' rest' E' L. apply (Least (x :: pre') rest').
           ++ simpl. now rewrite E'.
           ++ simpl. lia.
Qed.

Lemma re_search_none (p : list re_item) (s : pystr) :
  re_search unicode_alnum p s = None
  <-> forall pre rest,
        s = pre ++ rest -> match_here unicode_alnum p rest [] = None.
Proof.
  induction s as [|x s IH]; cbn [re_search].
  - split.
    + destruct (match_here unicode_alnum p [] []) eqn:M; [discriminate|].
      intros _ pre rest E. symmetry in E. apply app_eq_nil in E.
      destruct E as [-> ->]. exact M.
    + intros H. now rewrite (H [] [] eq_refl).
  - destruct (match_here unicode_alnum p (x :: s) []) as [g|] eqn:M.
    + split; [discriminate|]. intros H.
      rewrite (H [] (x :: s) eq_refl) in M. discriminate.
    + rewrite IH. split.
      * intros H [|y pre] rest E.
        -- simpl in E. now subst rest.
        -- injection E as <- E. now apply (H pre rest).
      * intros H pre rest E. apply (H (x :: pre) rest). simpl. now rewrite E.
Qed.

(** [parse_operating_state] in terms of fragments. *)
Lemma parse_some_iff (message X : pystr) :
  parse_operating_state unicode_alnum message = Some X
  <-> exists pre,
        fragment_at pre X message
        /\ forall pre' X',
             fragment_at pre' X' message ->
             (List.length pre <= List.length pre')%nat.
Proof.
  unfold parse_operating_state.
  assert (S : forall o : option pystr,
             match o with Some g => Some g | None => None end = o)
    by (intros [g|]; reflexivity).
  rewrite S, re_search_some. split.
  - intros [pre [rest [E [M Least]]]]. exists pre. split.
    + exists rest. split; [assumption|]. now apply newState_pattern_spec.
    + intros pre' X' [rest' [E' F']].
      destruct (Nat.le_gt_cases (List.length pre) (List.length pre'))
        as [L|L]; [assumption|].
      apply newState_pattern_spec in F'.
      rewrite (Least pre' rest' E' L) in F'. discriminate.
  - intros [pre [[rest [E F]] Least]]. exists pre, rest.
    repeat split; [assumption | now apply newState_pattern_spec |].
    intros pre' rest' E' L.
    destruct (match_here unicode_alnum newState_pattern rest' []) as [X'|] eqn:M;
      [|reflexivity].
    apply newState_pattern_spec in M.
    assert (F' : fragment_at pre' X' message) by (exists rest'; auto).
    specialize (Least pre' X' F'). lia.
Qed.

Lemma parse_none_iff (message : pystr) :
  parse_operating_state unicode_alnum message = None
  <-> forall pre X, ~ fragment_at pre X message.
Proof.
  unfold parse_operating_state.
  assert (S : forall o : option pystr,
             match o with Some g => Some g | None => None end = o)
    by (intros [g|]; reflexivity).
  rewrite S, re_search_none. split.
  - intros H pre X [rest [E F]]. apply newState_pattern_spec in F.
    rewrite (H pre rest E) in F. discriminate.
  - intros H pre rest E.
    destruct (match_here unicode_alnum newState_pattern rest []) as [X|] eqn:M;
      [|reflexivity].
    apply newState_pattern_spec in M. exfalso. apply (H pre X).
    exists rest; auto.
Qed.

End Parser.

End ParserFacts.

(** ** The listener *)

Module ListenerFacts.
Import Text Utf8 Regex Store SyslogRead Vocabulary TextFacts ParserFacts.

(** On byte values below 0x80 the decoder is the identity. *)
Lemma decode_values_ascii (s : list N) :
  Forall (fun b => b < 128) s -> decode_values s = s.
Proof.
  induction 1 as [|b s Hb Hs IH]; [reflexivity|].
  cbn [decode_values]. apply N.ltb_lt in Hb. rewrite Hb. now rewrite IH.
Qed.

Section Listener.

Variable unicode_alnum : codepoint -> bool.

Local Abbreviation word := (is_word unicode_alnum).
Local Abbreviation parse := (parse_operating_state unicode_alnum).

Lemma relevant_iff_marker (message : pystr) :
  existsb (fun msg => contains msg message) relevant_messages
  = contains marker message.
Proof. unfold relevant_messages, marker. simpl. apply orb_false_r. Qed.

(** A word character below U+0080 is a letter, a digit or the underscore. *)
Lemma word_ascii (c : codepoint) :
  word c = true -> c < 128 -> ascii_word c = true.
Proof.
  unfold is_word, isalnum, ascii_word. intros W L.
  apply N.ltb_lt in L. now rewrite L in W.
Qed.

Lemma ascii_word_is_word (c : codepoint) : ascii_word c = true -> word c = true.
Proof.
  unfold is_word, isalnum, ascii_word, ascii_alnum, in_range. intros A.
  destruct (c <? 128) eqn:L; [assumption|].
  apply N.ltb_ge in L.
  repeat rewrite ?orb_true_iff, ?andb_true_iff, ?N.leb_le, ?N.eqb_eq in A. lia.
Qed.

(** A datagram outside the filter leaves a debug record and nothing else. *)
Lemma process_irrelevant (a : arrival) (sv : server) :
  contains marker (decode (data a)) = false ->
  process unicode_alnum a sv
  = {| current_state := current_state sv;
       db_table := db_table sv;
       log := log sv ++ [Debug_ignored] |}.
Proof.
  intros H. unfold process. now rewrite relevant_iff_marker, H.
Qed.

(** A relevant datagram whose text yields token [X]. *)
Lemma process_parsed (a : arrival) (sv : server) (X : pystr) :
  contains marker (decode (data a)) = true ->
  parse (decode (data a)) = Some X ->
  process unicode_alnum a sv
  = let '(t, l) :=
      log_to_database (db a) (now a) (fst (addr a)) (snd (addr a)) X
        (db_table sv) in
    {| current_state := X;
       db_table := t;
       log := log sv ++ Info_operating_state X (fst (addr a)) (snd (addr a)) :: l |}.
Proof.
  intros R P. unfold process. rewrite relevant_iff_marker, R, P.
  apply parse_some_iff in P. destruct P as [pre [[rest [_ [NE _]]] _]].
  destruct X as [|c w]; [congruence | reflexivity].
Qed.

(** The table after an iteration is a function of the event and the table
    before it: the listener keeps no record of its own between datagrams. *)
Lemma iteration_table (e : event) (sv sv' : server) :
  db_table sv = db_table sv' ->
  db_table (iteration unicode_alnum e sv)
  = db_table (iteration unicode_alnum e sv').
Proof.
  intros E. destruct e as [a|]; [|exact E].
  unfold iteration, process.
  destruct (existsb _ relevant_messages); [|exact E].
  destruct (parse (decode (data a))) as [[|c w]|]; try exact E.
  rewrite E. destruct (db a); reflexivity.
Qed.

Lemma receive_loop_table (events : list event) (sv sv' : server) :
  db_table sv = db_table sv' ->
  db_table (receive_loop unicode_alnum events sv)
  = db_table (receive_loop unicode_alnum events sv').
Proof.
  revert sv sv'; induction events as [|e rest IH]; intros sv sv' E;
    [exact E|].
  cbn [receive_loop]. apply IH. now apply iteration_table.
Qed.

End Listener.

End ListenerFacts.

(** ** Specified behaviour of the listener *)

Module ListenerSpec.
Import Text Utf8 Regex Store SyslogRead Vocabulary TextFacts ParserFacts
  ListenerFacts.
Import Examples.

Section Behaviour.

Variable unicode_alnum : codepoint -> bool.

Local Abbreviation parse := (parse_operating_state unicode_alnum).
Local Abbreviation fragment := (fragment_at unicode_alnum).

Lemma receive_loop_irrelevant (events : list event) (sv : server) :
  (forall a, In (Datagram a) events ->
             contains marker (decode (data a)) = false) ->
  db_table (receive_loop unicode_alnum events sv) = db_table sv.
Proof.
  revert sv; induction events as [|e rest IH]; intros sv H; [reflexivity|].
  cbn [receive_loop]. rewrite IH by (intros a I; apply H; now right).
  destruct e as [a|]; [|reflexivity].
  cbn [iteration]. rewrite process_irrelevant; [reflexivity|].
  apply H. now left.
Qed.

(** C2, amended.  A datagram whose decoded text (UTF-8, undecodable bytes
    dropped) does not contain [SE_OPMOD_CHANGED] fails the relevance check
    and is discarded: the iteration leaves the table and [current_state]
    as they were and only records the ignored message.  A run of such
    datagrams never appends a row.  For a datagram made of bytes below
    0x80 the decoded text is the byte sequence, so the marker being absent
    from the bytes is enough. *)
Theorem C2_text_without_marker_is_discarded :
  (forall (a : arrival) (sv : server),
      contains marker (decode (data a)) = false ->
      existsb (fun msg => contains msg (decode (data a))) relevant_messages
      = false
      /\ process unicode_alnum a sv
         = {| current_state := current_state sv;
              db_table := db_table sv;
              log := log sv ++ [Debug_ignored] |})
  /\ (forall (events : list event) (t : table),
         (forall a, In (Datagram a) events ->
                    contains marker (decode (data a)) = false) ->
         db_table (start_syslog_server unicode_alnum events t) = t)
  /\ (forall (a : arrival),
         Forall (fun b => Byte.to_N b < 128) (data a) ->
         contains marker (byte_values (data a)) = false ->
         contains marker (decode (data a)) = false).
Proof.
  split; [|split].
  - intros a sv H. split.
    + now rewrite relevant_iff_marker.
    + now apply process_irrelevant.
  - intros events t H. unfold start_syslog_server.
    now rewrite receive_loop_irrelevant.
  - intros a A H. unfold decode. rewrite decode_values_ascii; [exact H|].
    unfold byte_values. now apply Forall_map.
Qed.

(** C3.  When [message] holds a well-formed fragment [newState="X"], [X]
    one or more word characters, and no fragment starts further left,
    [parse_operating_state] returns exactly [X]; a returned token always
    is the token of such a leftmost fragment; when [message] holds no
    fragment the result is [None], a value and not an error.  A relevant
    datagram whose text has leftmost token [X] appends exactly one row,
    with [operating_state = X], the sender's address and the clock
    reading, when the insert goes through, and none when it raises. *)
Theorem C3_parse_returns_leftmost_token :
  (forall (message pre X : pystr),
      fragment pre X message ->
      (forall pre' X', fragment pre' X' message ->
                       (List.length pre <= List.length pre')%nat) ->
      parse message = Some X)
  /\ (forall (message X : pystr),
         parse message = Some X -> exists pre, fragment pre X message)
  /\ (forall (message : pystr),
         (forall pre X, ~ fragment pre X message) -> parse message = None)
  /\ (forall (a : arrival) (sv : server) (pre X : pystr),
         contains marker (decode (data a)) = true ->
         fragment pre X (decode (data a)) ->
         (forall pre' X', fragment pre' X' (decode (data a)) ->
                          (List.length pre <= List.length pre')%nat) ->
         db_table (process unicode_alnum a sv)
         = match db a with
           | Available =>
               db_table sv ++ [mkRow (now a) (fst (addr a)) (snd (addr a)) X]
           | Failing => db_table sv
           end).
Proof.
  split; [|split; [|split]].
  - intros message pre X F Least. apply parse_some_iff. now exists pre.
  - intros message X P. apply parse_some_iff in P.
    destruct P as [pre [F _]]. now exists pre.
  - intros message H. now apply parse_none_iff.
  - intros a sv pre X R F Least.
    assert (P : parse (decode (data a)) = Some X)
      by (apply parse_some_iff; now exists pre).
    rewrite (process_parsed unicode_alnum a sv X R P).
    unfold log_to_database, insert. destruct (db a); reflexivity.
Qed.

(** C4, amended.  A token returned by [parse_operating_state] is not
    empty and consists of word characters in the sense of the pattern's
    [\w]: alphanumeric code points of Unicode and the underscore.  Its
    characters below U+0080 are in [A-Za-z0-9_], and every non-empty
    string over [A-Za-z0-9_] is the token of some text. *)
Theorem C4_token_is_made_of_word_characters :
  (forall (message tok : pystr),
      parse message = Some tok ->
      tok <> []
      /\ Forall (fun c => is_word unicode_alnum c = true) tok
      /\ Forall (fun c => c < 128 -> ascii_word c = true) tok)
  /\ (forall (X : pystr),
         X <> [] ->
         Forall (fun c => ascii_word c = true) X ->
         parse (str_of "newState=" ++ dquote :: X ++ [dquote]) = Some X).
Proof.
  split.
  - intros message tok P. apply parse_some_iff in P.
    destruct P as [pre [[rest [_ [NE [W _]]]] _]].
    repeat split; try assumption.
    eapply Forall_impl; [|exact W].
    intros c Wc L. now apply word_ascii with (1 := Wc).
  - intros X NE A. apply parse_some_iff. exists []. split.
    + eexists. split; [reflexivity|]. split; [assumption|]. split.
      * eapply Forall_impl; [|exact A].
        intros c Ac. now apply ascii_word_is_word.
      * now exists [].
    + intros pre' X' _. cbn. lia.
Qed.

(** C7.  When the insert for a parsed token raises, the iteration logs
    the state and the database error and ends normally: the table is the
    one before the datagram, the loop goes on with the events that follow,
    and the final table is the one the same events yield without the
    failed datagram, so the lost row is neither retried nor queued. *)
Theorem C7_failed_append_is_logged_and_dropped :
  forall (a : arrival) (sv : server) (rest : list event) (X : pystr),
    db a = Failing ->
    contains marker (decode (data a)) = true ->
    parse (decode (data a)) = Some X ->
    process unicode_alnum a sv
    = {| current_state := X;
         db_table := db_table sv;
         log := log sv
                  ++ [Info_operating_state X (fst (addr a)) (snd (addr a));
                      Error_log_to_database] |}
    /\ receive_loop unicode_alnum (Datagram a :: rest) sv
       = receive_loop unicode_alnum rest (process unicode_alnum a sv)
    /\ db_table (receive_loop unicode_alnum (Datagram a :: rest) sv)
       = db_table (receive_loop unicode_alnum rest sv).
Proof.
  intros a sv rest X D R P.
  assert (E : process unicode_alnum a sv
              = {| current_state := X;
                   db_table := db_table sv;
                   log := log sv
                     ++ [Info_operating_state X (fst (addr a)) (snd (addr a));
                         Error_log_to_database] |}).
  { rewrite (process_parsed unicode_alnum a sv X R P).
    unfold log_to_database. now rewrite D. }
  split; [exact E|]. split; [reflexivity|].
  cbn [receive_loop iteration]. apply receive_loop_table.
  now rewrite E.
Qed.

End Behaviour.

(** *** The sample traffic *)

(** Undecodable bytes are dropped before the relevance check: the bytes
    of [split_marker_datagram] do not contain the marker, yet the datagram
    passes the check and a row is stored. *)
Lemma C2_split_marker_is_stored :
  contains marker (byte_values split_marker_datagram) = false
  /\ existsb (fun msg => contains msg (decode split_marker_datagram))
       relevant_messages = true
  /\ db_table (process latin1_alnum
                 (arrives split_marker_datagram ts1 Available) idle)
     = [row1].
Proof. vm_compute. repeat split. Qed.

Lemma C2_login_datagram_discarded :
  contains marker (decode login_datagram) = false
  /\ process latin1_alnum (arrives login_datagram ts1 Available) idle
     = {| current_state := str_of "UNKNOWN"; db_table := [];
          log := [Debug_ignored] |}
  /\ db_table (start_syslog_server latin1_alnum
                 [Datagram (arrives login_datagram ts1 Available);
                  Datagram (arrives login_datagram ts2 Available)] [row1])
     = [row1].
Proof.
  assert (H : contains marker (decode login_datagram) = false) by reflexivity.
  pose proof (C2_text_without_marker_is_discarded latin1_alnum) as [A [B C]].
  split; [exact H|]. split.
  - exact (proj2 (A (arrives login_datagram ts1 Available) idle H)).
  - apply B. intros a [E | [E | []]]; injection E as <-; exact H.
Defined.

(** The first [newState] field of [run_datagram] is a fragment, and the
    leftmost one. *)
Lemma run_datagram_fragment :
  fragment_at latin1_alnum (str_of "<14>SE_OPMOD_CHANGED ") (str_of "RUN")
    (decode run_datagram).
Proof.
  exists (skipn 21 (decode run_datagram)). split; [vm_compute; reflexivity|].
  split; [discriminate|]. split.
  - change (str_of "RUN") with [82; 85; 78].
    repeat (apply Forall_cons; [vm_compute; reflexivity|]). apply Forall_nil.
  - exists (skipn 35 (decode run_datagram)). vm_compute. reflexivity.
Qed.

Lemma run_datagram_leftmost (pre' X' : pystr) :
  fragment_at latin1_alnum pre' X' (decode run_datagram) ->
  (List.length (str_of "<14>SE_OPMOD_CHANGED ") <= List.length pre')%nat.
Proof.
  intros [rest [E [_ [_ [post ->]]]]].
  let v := eval vm_compute in (decode run_datagram) in
  change (decode run_datagram) with v in E.
  let k := eval vm_compute in (str_of "newState=") in
  change (str_of "newState=") with k in E.
  do 21 (destruct pre' as [|? pre'];
         [discriminate E | injection E as _ E]).
  simpl. lia.
Qed.

Lemma fieldless_datagram_no_fragment (pre X : pystr) :
  ~ fragment_at latin1_alnum pre X (decode fieldless_datagram).
Proof. apply parse_none_iff. vm_compute. reflexivity. Qed.

Lemma C3_run_datagram_parsed :
  parse_operating_state latin1_alnum (decode run_datagram)
  = Some (str_of "RUN")
  /\ parse_operating_state latin1_alnum (decode fieldless_datagram) = None
  /\ db_table (process latin1_alnum (arrives run_datagram ts1 Available) idle)
     = [row1].
Proof.
  pose proof (C3_parse_returns_leftmost_token latin1_alnum) as [A [_ [B C]]].
  split; [|split].
  - exact (A _ _ _ run_datagram_fragment run_datagram_leftmost).
  - exact (B _ fieldless_datagram_no_fragment).
  - refine (C (arrives run_datagram ts1 Available) idle _ _ _
              run_datagram_fragment run_datagram_leftmost).
    vm_compute. reflexivity.
Defined.

(** The token of [accent_datagram] is the single letter U+00E9, which is
    not in [A-Za-z0-9_]. *)
Lemma C4_accented_token_is_returned :
  parse_operating_state latin1_alnum (decode accent_datagram) = Some [233]
  /\ ascii_word 233 = false
  /\ db_table (process latin1_alnum (arrives accent_datagram ts1 Available) idle)
     = [mkRow ts1 (fst plc) (snd plc) [233]].
Proof. vm_compute. repeat split. Qed.

Lemma C4_run_token_is_ascii :
  Forall (fun c => is_word latin1_alnum c = true) (str_of "RUN")
  /\ Forall (fun c => c < 128 -> ascii_word c = true) (str_of "RUN")
  /\ parse_operating_state latin1_alnum
       (str_of "newState=" ++ dquote :: str_of "RUN_2" ++ [dquote])
     = Some (str_of "RUN_2").
Proof.
  pose proof (C4_token_is_made_of_word_characters latin1_alnum) as [A B].
  assert (P : parse_operating_state latin1_alnum (decode run_datagram)
              = Some (str_of "RUN")) by (vm_compute; reflexivity).
  destruct (A _ _ P) as [_ [W L]].
  split; [exact W|]. split; [exact L|].
  apply B; [discriminate|].
  change (str_of "RUN_2") with [82; 85; 78; 95; 50].
  repeat (apply Forall_cons; [vm_compute; reflexivity|]). apply Forall_nil.
Defined.

Lemma C7_failed_insert_on_sample :
  process latin1_alnum (arrives run_datagram ts1 Failing) idle
  = {| current_state := str_of "RUN"; db_table := [];
       log := [Info_operating_state (str_of "RUN") (fst plc) (snd plc);
               Error_log_to_database] |}
  /\ db_table (receive_loop latin1_alnum
                 [Datagram (arrives run_datagram ts1 Failing);
                  Datagram (arrives run_datagram ts2 Available)] idle)
     = db_table (receive_loop latin1_alnum
                   [Datagram (arrives run_datagram ts2 Available)] idle).
Proof.
  pose proof (C7_failed_append_is_logged_and_dropped latin1_alnum
                (arrives run_datagram ts1 Failing) idle
                [Datagram (arrives run_datagram ts2 Available)]
                (str_of "RUN") eq_refl eq_refl eq_refl) as [A [_ B]].
  split; [exact A | exact B].
Defined.

End ListenerSpec.

(** ** The table *)

Module StoreFacts.
Import Text Store Vocabulary TextFacts.

Lemma leading_in (best : row) (t : table) : In (leading best t) (best :: t).
Proof.
  revert best; induction t as [|r t IH]; intros best; cbn [leading].
  - now left.
  - destruct (str_ltb (timestamp best) (timestamp r)).
    + right. apply IH.
    + destruct (IH best) as [E | I]; [now left | right; now right].
Qed.

(** No row of the table has a timestamp above the leading one. *)
Lemma leading_greatest (best : row) (t : table) (x : row) :
  In x (best :: t) ->
  str_ltb (timestamp (leading best t)) (timestamp x) = false.
Proof.
  revert best x; induction t as [|r t IH]; intros best x I; cbn [leading].
  - destruct I as [<- | []].
    destruct (str_ltb (timestamp best) (timestamp best)) eqn:L; [|reflexivity].
    apply str_ltb_lt in L. now apply str_lt_irrefl in L.
  - destruct (str_ltb (timestamp best) (timestamp r)) eqn:B.
    + destruct I as [<- | I]; [|now apply IH].
      destruct (str_ltb (timestamp (leading r t)) (timestamp best)) eqn:L;
        [|reflexivity].
      apply str_ltb_lt in L, B.
      pose proof (str_lt_trans _ _ _ L B) as L'. apply str_ltb_lt in L'.
      rewrite (IH r r (or_introl eq_refl)) in L'. discriminate.
    + destruct I as [E | [E | I]].
      * apply IH. now left.
      * subst x.
        destruct (str_ltb (timestamp (leading best t)) (timestamp r)) eqn:L;
          [|reflexivity].
        apply str_ltb_lt in L.
        assert (L' : str_lt (timestamp (leading best t)) (timestamp best)).
        { destruct (str_not_ltb_cases _ _ B) as [E | G].
          - now rewrite E.
          - exact (str_lt_trans _ _ _ L G). }
        apply str_ltb_lt in L'.
        rewrite (IH best best (or_introl eq_refl)) in L'. discriminate.
      * apply IH. now right.
Qed.

Lemma last_cons_default {A : Type} (r d : A) (t : list A) :
  last (r :: t) d = last t r.
Proof.
  revert r d; induction t as [|x t IH]; intros r d; [reflexivity|].
  change (last (r :: x :: t) d) with (last (x :: t) d).
  now rewrite (IH x d), (IH x r).
Qed.

(** With growing timestamps the leading row is the one inserted last. *)
Lemma leading_increasing (best : row) (t : table) :
  increasing (best :: t) -> leading best t = last t best.
Proof.
  unfold increasing. revert best; induction t as [|r t IH]; intros best S;
    [reflexivity|].
  apply Sorted_inv in S. destruct S as [S H]. apply HdRel_inv in H.
  cbn [leading]. apply str_ltb_lt in H. rewrite H.
  rewrite (IH r S). symmetry. apply last_cons_default.
Qed.

Lemma select_latest_increasing (t : table) (d : row) :
  t <> [] -> increasing t -> select_latest t = Some (last t d).
Proof.
  destruct t as [|r t]; [congruence|]. intros _ S. cbn [select_latest].
  now rewrite (leading_increasing r t S), last_cons_default.
Qed.

Lemma select_latest_greatest (t : table) (r : row) :
  select_latest t = Some r ->
  In r t /\ forall x, In x t -> str_ltb (timestamp r) (timestamp x) = false.
Proof.
  destruct t as [|b t]; [discriminate|]. cbn [select_latest].
  intros [= <-]. split; [apply leading_in|].
  intros x I. now apply leading_greatest.
Qed.

Lemma select_latest_nonempty (t : table) :
  t <> [] -> exists r, select_latest t = Some r.
Proof. destruct t as [|b t]; [congruence|]. intros _. now eexists. Qed.

Lemma increasing_strongly (t : table) :
  increasing t ->
  StronglySorted (fun a b => str_lt (timestamp a) (timestamp b)) t.
Proof.
  apply Sorted_StronglySorted. intros a b c. apply str_lt_trans.
Qed.

Lemma last_in (t : table) (d : row) : t <> [] -> In (last t d) t.
Proof.
  induction t as [|r t IH]; [congruence|]. intros _.
  destruct t as [|x t]; [now left|].
  right. apply IH. discriminate.
Qed.

Lemma increasing_across (old new : table) (x y : row) :
  increasing (old ++ new) -> In x old -> In y new ->
  str_lt (timestamp x) (timestamp y).
Proof.
  intros S. apply increasing_strongly in S.
  induction old as [|o old IH]; intros Ix Iy; [destruct Ix|].
  cbn [app] in S. apply StronglySorted_inv in S. destruct S as [S F].
  destruct Ix as [<- | Ix]; [|now apply IH].
  rewrite Forall_forall in F. apply F. apply in_or_app. now right.
Qed.

(** In a table with growing timestamps the newest of the rows appended
    after [old] is not a row of [old]. *)
Lemma last_appended_is_new (old new : table) (d : row) :
  new <> [] -> increasing (old ++ new) -> ~ In (last new d) old.
Proof.
  intros NE S I.
  apply (str_lt_irrefl (timestamp (last new d))).
  apply (increasing_across old new _ _ S I). now apply last_in.
Qed.

End StoreFacts.

(** ** The poller *)

Module MonitorFacts.
Import Text Store Monitor Vocabulary TextFacts StoreFacts.

Open Scope Z_scope.

Lemma changed_test (r : row) (shown : option row) :
  match shown with
  | None => true
  | Some ls =>
      negb (str_eqb (timestamp r) (timestamp ls))
      || negb (str_eqb (operating_state r) (operating_state ls))
  end = true
  <-> changed r shown.
Proof.
  destruct shown as [l|]; simpl; [|tauto].
  rewrite orb_true_iff, !negb_true_iff, !str_eqb_neq. tauto.
Qed.

Lemma notifications_app (a b : list output) :
  notifications (a ++ b) = notifications a ++ notifications b.
Proof.
  induction a as [|x a IH]; [reflexivity|].
  destruct x; simpl; now rewrite IH.
Qed.

Lemma count_value_cases (k : tick) :
  (fst (count_read k) = Available
   /\ count_value k = count (snd (count_read k))
   /\ snd (get_record_count (count_read k)) = [])
  \/ (fst (count_read k) = Failing
      /\ count_value k = -1
      /\ snd (get_record_count (count_read k)) = [Print_count_error]).
Proof.
  unfold count_value, get_record_count.
  destruct (fst (count_read k)); [left | right]; auto.
Qed.

Lemma latest_value_cases (k : tick) :
  (fst (latest_read k) = Available
   /\ latest_value k = select_latest (snd (latest_read k))
   /\ snd (query_latest_state (latest_read k)) = [])
  \/ (fst (latest_read k) = Failing
      /\ latest_value k = None
      /\ snd (query_latest_state (latest_read k)) = [Print_query_error]).
Proof.
  unfold latest_value, query_latest_state.
  destruct (fst (latest_read k)); [left | right]; auto.
Qed.

Lemma guard_test (k : tick) (s : session) :
  (last_record_count s <? count_value k) && (0 <? count_value k) = true
  <-> guard k s.
Proof. unfold guard. rewrite andb_true_iff, !Z.ltb_lt. tauto. Qed.

(** The three ways an iteration can go. *)
Lemma iteration_guard_closed (k : tick) (s : session) :
  ~ guard k s ->
  iteration k s = (s, snd (get_record_count (count_read k))).
Proof.
  intros G. unfold iteration.
  destruct (get_record_count (count_read k)) as [c o1] eqn:C.
  assert (Ec : count_value k = c) by (unfold count_value; now rewrite C).
  destruct ((last_record_count s <? c) && (0 <? c)) eqn:T; [|reflexivity].
  exfalso. apply G. apply guard_test. now rewrite Ec.
Qed.

Lemma iteration_shown (k : tick) (s : session) (r : row) :
  guard k s -> latest_value k = Some r -> changed r (last_state s) ->
  iteration k s
  = ({| last_record_count := count_value k; last_state := Some r |},
     [Display r]).
Proof.
  intros G L Ch. unfold iteration.
  destruct (get_record_count (count_read k)) as [c o1] eqn:C.
  assert (Ec : count_value k = c) by (unfold count_value; now rewrite C).
  apply guard_test in G. rewrite Ec in G. rewrite G.
  destruct (query_latest_state (latest_read k)) as [q o2] eqn:Q.
  assert (Eq : latest_value k = q) by (unfold latest_value; now rewrite Q).
  rewrite Eq in L. subst q.
  apply changed_test in Ch. rewrite Ch.
  assert (o1 = []) as ->.
  { destruct (count_value_cases k) as [[_ [_ O]] | [_ [V _]]].
    - now rewrite C in O.
    - apply andb_true_iff in G. rewrite <- Ec, V in G.
      destruct G as [_ G]. discriminate. }
  assert (o2 = []) as ->.
  { destruct (latest_value_cases k) as [[_ [_ O]] | [_ [V _]]].
    - now rewrite Q in O.
    - rewrite Eq in V. discriminate. }
  now rewrite Ec.
Qed.

Lemma iteration_not_shown (k : tick) (s : session) :
  guard k s ->
  (latest_value k = None
   \/ exists r, latest_value k = Some r /\ ~ changed r (last_state s)) ->
  iteration k s
  = ({| last_record_count := count_value k; last_state := last_state s |},
     snd (query_latest_state (latest_read k))).
Proof.
  intros G L. unfold iteration.
  destruct (get_record_count (count_read k)) as [c o1] eqn:C.
  assert (Ec : count_value k = c) by (unfold count_value; now rewrite C).
  assert (o1 = []) as ->.
  { destruct (count_value_cases k) as [[_ [_ O]] | [_ [V _]]].
    - now rewrite C in O.
    - destruct G as [_ G]. rewrite V in G. lia. }
  apply guard_test in G. rewrite Ec in G. rewrite G.
  destruct (query_latest_state (latest_read k)) as [q o2] eqn:Q.
  assert (Eq : latest_value k = q) by (unfold latest_value; now rewrite Q).
  rewrite Eq in L. cbn [snd]. rewrite Ec.
  destruct L as [-> | [r [-> N]]]; [reflexivity|].
  destruct (match last_state s with
            | None => true
            | Some ls =>
                negb (str_eqb (timestamp r) (timestamp ls))
                || negb (str_eqb (operating_state r) (operating_state ls))
            end) eqn:T; [|reflexivity].
  exfalso. apply N. now apply changed_test.
Qed.

Lemma guard_dec (k : tick) (s : session) : guard k s \/ ~ guard k s.
Proof. unfold guard. lia. Qed.

Lemma changed_dec (r : row) (shown : option row) :
  changed r shown \/ ~ changed r shown.
Proof.
  rewrite <- changed_test.
  destruct (match shown with None => true | Some ls => _ end);
    [now left | right; discriminate].
Qed.

Lemma error_prints_not_shown (rd : read) :
  notifications (snd (get_record_count rd)) = []
  /\ notifications (snd (query_latest_state rd)) = [].
Proof.
  unfold get_record_count, query_latest_state.
  destruct (fst rd); split; reflexivity.
Qed.

(** An iteration shows row [r] exactly when the guard holds, the latest
    read returns [r] and [r] differs from the row shown last. *)
Lemma iteration_shows_iff (k : tick) (s : session) (r : row) :
  notifications (snd (iteration k s)) = [r]
  <-> guard k s /\ latest_value k = Some r /\ changed r (last_state s).
Proof.
  destruct (guard_dec k s) as [G | G].
  - destruct (latest_value k) as [q|] eqn:L.
    + destruct (changed_dec q (last_state s)) as [Ch | Ch].
      * rewrite (iteration_shown k s q G L Ch). cbn. split.
        -- intros [= ->]. auto.
        -- intros [_ [[= ->] _]]. reflexivity.
      * rewrite (iteration_not_shown k s G) by (right; eauto).
        cbn [snd]. rewrite (proj2 (error_prints_not_shown _)). split.
        -- discriminate.
        -- intros [_ [[= ->] Ch']]. contradiction.
    + rewrite (iteration_not_shown k s G) by now left.
      cbn [snd]. rewrite (proj2 (error_prints_not_shown _)). split.
      * discriminate.
      * intros [_ [E _]]. discriminate.
  - rewrite (iteration_guard_closed k s G). cbn [snd].
    rewrite (proj1 (error_prints_not_shown _)). split.
    + discriminate.
    + intros [G' _]. contradiction.
Qed.

(** What an iteration leaves behind: either nothing is shown and the row
    shown last stays, or one row is shown and becomes the row shown
    last. *)
Lemma iteration_outcome (k : tick) (s : session) :
  (notifications (snd (iteration k s)) = []
   /\ last_state (fst (iteration k s)) = last_state s)
  \/ (exists r,
        notifications (snd (iteration k s)) = [r]
        /\ last_state (fst (iteration k s)) = Some r
        /\ guard k s /\ latest_value k = Some r /\ changed r (last_state s)).
Proof.
  destruct (guard_dec k s) as [G | G].
  - destruct (latest_value k) as [q|] eqn:L.
    + destruct (changed_dec q (last_state s)) as [Ch | Ch].
      * right. exists q. rewrite (iteration_shown k s q G L Ch). auto.
      * left. rewrite (iteration_not_shown k s G) by (right; eauto).
        cbn [fst snd last_state].
        now rewrite (proj2 (error_prints_not_shown _)).
    + left. rewrite (iteration_not_shown k s G) by now left.
      cbn [fst snd last_state].
      now rewrite (proj2 (error_prints_not_shown _)).
  - left. rewrite (iteration_guard_closed k s G). cbn [fst snd].
    now rewrite (proj1 (error_prints_not_shown _)).
Qed.

(** The count seen last never decreases, and after a guard that held it is the
    count just read. *)
Lemma iteration_count (k : tick) (s : session) :
  (guard k s /\ last_record_count (fst (iteration k s)) = count_value k)
  \/ (~ guard k s /\ fst (iteration k s) = s).
Proof.
  destruct (guard_dec k s) as [G | G].
  - left. split; [assumption|].
    destruct (latest_value k) as [q|] eqn:L.
    + destruct (changed_dec q (last_state s)) as [Ch | Ch].
      * now rewrite (iteration_shown k s q G L Ch).
      * now rewrite (iteration_not_shown k s G) by (right; eauto).
    + now rewrite (iteration_not_shown k s G) by now left.
  - right. split; [assumption|]. now rewrite (iteration_guard_closed k s G).
Qed.

Lemma iteration_count_le (k : tick) (s : session) :
  last_record_count s <= last_record_count (fst (iteration k s)).
Proof.
  destruct (iteration_count k s) as [[[G _] E] | [_ E]]; rewrite E; lia.
Qed.

Lemma main_loop_cons (k : tick) (rest : list tick) (s : session) :
  main_loop (k :: rest) s
  = (fst (main_loop rest (fst (iteration k s))),
     snd (iteration k s) ++ snd (main_loop rest (fst (iteration k s)))).
Proof.
  cbn [main_loop]. destruct (iteration k s) as [s1 o1]. cbn [fst snd].
  destruct (main_loop rest s1) as [s2 o2]. reflexivity.
Qed.

Lemma main_loop_app (a b : list tick) (s : session) :
  main_loop (a ++ b) s
  = (fst (main_loop b (fst (main_loop a s))),
     snd (main_loop a s) ++ snd (main_loop b (fst (main_loop a s)))).
Proof.
  revert s; induction a as [|k a IH]; intros s.
  - cbn [app main_loop fst snd]. now destruct (main_loop b s).
  - cbn [app]. rewrite !main_loop_cons, IH. cbn [fst snd].
    now rewrite app_assoc.
Qed.

Lemma main_loop_count_le (ticks : list tick) (s : session) :
  last_record_count s <= last_record_count (fst (main_loop ticks s)).
Proof.
  revert s; induction ticks as [|k rest IH]; intros s; [cbn; lia|].
  rewrite main_loop_cons. cbn [fst].
  pose proof (iteration_count_le k s). specialize (IH (fst (iteration k s))).
  lia.
Qed.

End MonitorFacts.

(** ** Specified behaviour of the poller *)

Module MonitorSpec.
Import Text Store Monitor Vocabulary TextFacts StoreFacts MonitorFacts.
Import Examples.

Open Scope Z_scope.

Lemma appended_rows (rows : list row) (t : table) : appended rows t = t ++ rows.
Proof.
  unfold appended. revert t; induction rows as [|r rows IH]; intros t.
  - cbn. now rewrite app_nil_r.
  - cbn [fold_left]. rewrite IH. unfold SyslogRead.log_to_database, insert.
    cbn [fst]. destruct r. cbn. now rewrite <- app_assoc.
Qed.

Lemma startup_session (start : read) :
  fst (startup start)
  = {| last_record_count := fst (get_record_count start); last_state := None |}
  /\ notifications (snd (startup start)) = [].
Proof.
  unfold startup.
  pose proof (proj1 (error_prints_not_shown start)) as E.
  destruct (get_record_count start) as [c o]. auto.
Qed.

Lemma main_notifications (start : read) (ticks : list tick) :
  notifications (main true start ticks)
  = notifications (snd (main_loop ticks (fst (startup start)))).
Proof.
  unfold main. pose proof (proj2 (startup_session start)) as E.
  destruct (startup start) as [s0 o0]. cbn [fst snd] in *.
  cbn [notifications]. now rewrite notifications_app, E.
Qed.

(** The shown rows, with the row shown before the run in front, never
    repeat a (timestamp, state) pair from one to the next. *)
Lemma main_loop_no_repeat (ticks : list tick) (s : session) :
  no_repeat (shown_last s ++ notifications (snd (main_loop ticks s))).
Proof.
  revert s; induction ticks as [|k rest IH]; intros s.
  - cbn [main_loop snd notifications]. rewrite app_nil_r.
    unfold shown_last. destruct (last_state s); cbn; auto.
  - rewrite main_loop_cons. cbn [snd]. rewrite notifications_app.
    specialize (IH (fst (iteration k s))).
    destruct (iteration_outcome k s) as [[N L] | [r [N [L [_ [_ Ch]]]]]].
    + rewrite N. cbn [app]. unfold shown_last in *. now rewrite L in IH.
    + rewrite N. unfold shown_last in *. rewrite L in IH.
      cbn [app] in IH |- *.
      destruct (last_state s) as [l|]; [|exact IH].
      cbn [app no_repeat]. split; [|exact IH].
      cbn [changed] in Ch. intros [= E1 E2]. destruct Ch; congruence.
Qed.

(** [last_state] is the row shown last, if any. *)
Lemma main_loop_last_state (ticks : list tick) (s : session) :
  last_state (fst (main_loop ticks s))
  = last (map Some (notifications (snd (main_loop ticks s)))) (last_state s).
Proof.
  revert s; induction ticks as [|k rest IH]; intros s; [reflexivity|].
  rewrite main_loop_cons. cbn [fst snd]. rewrite notifications_app, IH.
  destruct (iteration_outcome k s) as [[N L] | [r [N [L _]]]];
    rewrite N, L; [reflexivity|].
  cbn [app map]. now rewrite last_cons_default.
Qed.

(** C1, amended.  An iteration shows a row exactly when the count it
    reads exceeds [last_record_count] and is positive, the latest read
    returns a row, and that row differs in timestamp or state from the
    row shown last or no row was shown yet; it shows at most one row.
    Over a whole run [last_state] is the row shown last, and no two
    consecutive notifications carry the same (timestamp, state) pair. *)
Theorem C1_shown_iff_count_grew_and_row_changed :
  (forall (k : tick) (s : session) (r : row),
      notifications (snd (iteration k s)) = [r]
      <-> (last_record_count s < count_value k /\ 0 < count_value k)
          /\ latest_value k = Some r
          /\ changed r (last_state s))
  /\ (forall (k : tick) (s : session),
         notifications (snd (iteration k s)) = []
         \/ exists r, notifications (snd (iteration k s)) = [r])
  /\ (forall (start : read) (ticks : list tick),
         last_state (fst (main_loop ticks (fst (startup start))))
         = last (map Some (notifications (main true start ticks))) None
         /\ no_repeat (notifications (main true start ticks))).
Proof.
  split; [|split].
  - intros k s r. apply iteration_shows_iff.
  - intros k s.
    destruct (iteration_outcome k s) as [[N _] | [r [N _]]]; eauto.
  - intros start ticks. rewrite main_notifications.
    pose proof (proj1 (startup_session start)) as E. split.
    + rewrite main_loop_last_state. now rewrite E.
    + pose proof (main_loop_no_repeat ticks (fst (startup start))) as R.
      unfold shown_last in R. rewrite E in R |- *. exact R.
Qed.

(** C5, amended.  After [N >= 1] successful appends
    [query_latest_state] returns a row of the table that no row exceeds
    in timestamp; when the timestamps grow strictly from each append to
    the next, that row is the one of the [N]-th append. *)
Theorem C5_latest_is_last_append :
  forall (rows : list row) (d : row),
    rows <> [] ->
    (exists r,
        query_latest_state (Available, appended rows []) = (Some r, [])
        /\ In r rows
        /\ forall x, In x rows -> ~ str_lt (timestamp r) (timestamp x))
    /\ (increasing rows ->
        query_latest_state (Available, appended rows [])
        = (Some (last rows d), [])).
Proof.
  intros rows d NE. rewrite appended_rows. cbn [app].
  unfold query_latest_state. cbn [fst snd]. split.
  - destruct (select_latest_nonempty rows NE) as [r E]. exists r.
    rewrite E. destruct (select_latest_greatest rows r E) as [I G].
    repeat split; [assumption|]. intros x Ix L.
    apply str_ltb_lt in L. rewrite (G x Ix) in L. discriminate.
  - intros S. now rewrite (select_latest_increasing rows d NE S).
Qed.

(** C6, amended.  A failed count read prints its error, shows nothing
    and leaves the session as it was, so the run goes on as if the tick
    had not happened.  A failed latest read (it is only made when the
    count has grown) prints its error and shows nothing; the row shown
    last stays, [last_record_count] has already moved to the new count,
    and the run goes on from that session. *)
Theorem C6_failed_read_is_logged_and_shows_nothing :
  (forall (t : table) (q : read) (s : session) (rest : list tick),
      let k := {| count_read := (Failing, t); latest_read := q |} in
      iteration k s = (s, [Print_count_error])
      /\ main_loop (k :: rest) s
         = (fst (main_loop rest s),
            Print_count_error :: snd (main_loop rest s)))
  /\ (forall (t tq : table) (s : session) (rest : list tick),
         let k := {| count_read := (Available, t);
                     latest_read := (Failing, tq) |} in
         let s1 := {| last_record_count := count t;
                      last_state := last_state s |} in
         (last_record_count s < count t /\ 0 < count t ->
          iteration k s = (s1, [Print_query_error])
          /\ main_loop (k :: rest) s
             = (fst (main_loop rest s1),
                Print_query_error :: snd (main_loop rest s1)))
         /\ (~ (last_record_count s < count t /\ 0 < count t) ->
             iteration k s = (s, []))).
Proof.
  split.
  - intros t q s rest k.
    assert (E : iteration k s = (s, [Print_count_error])).
    { rewrite iteration_guard_closed; [reflexivity|].
      unfold guard, count_value. cbn. lia. }
    split; [exact E|]. rewrite main_loop_cons, E. reflexivity.
  - intros t tq s rest k s1. split.
    + intros G.
      assert (E : iteration k s = (s1, [Print_query_error])).
      { rewrite iteration_not_shown; [reflexivity | exact G | now left]. }
      split; [exact E|]. rewrite main_loop_cons, E. reflexivity.
    + intros G. now rewrite iteration_guard_closed.
Qed.

(** Nothing new for session [s] in table [t]: the guard stays false. *)
Lemma main_loop_nothing_new (t : table) (s : session)
    (ds : list (db_status * db_status)) :
  count t <= last_record_count s \/ count t <= 0 ->
  notifications (snd (main_loop (map (on_table t) ds) s)) = []
  /\ fst (main_loop (map (on_table t) ds) s) = s.
Proof.
  intros H. induction ds as [|d ds IH]; [split; reflexivity|].
  cbn [map]. rewrite main_loop_cons. cbn [fst snd].
  assert (G : ~ guard (on_table t d) s).
  { unfold guard. destruct (count_value_cases (on_table t d))
      as [[_ [V _]] | [_ [V _]]]; rewrite V; cbn [on_table count_read snd];
      lia. }
  rewrite (iteration_guard_closed _ _ G). cbn [fst snd].
  rewrite notifications_app, (proj1 (error_prints_not_shown _)).
  destruct IH as [IH1 IH2]. now rewrite IH1, IH2.
Qed.

(** C8.  After a tick whose count read went through, any number of
    further ticks on the same table show nothing, whether their reads go
    through or raise; more generally, while the table holds no more rows
    than the count seen last (or is empty), ticks show nothing and leave
    the session unchanged. *)
Theorem C8_ticks_on_unchanged_table_show_nothing :
  (forall (s : session) (t : table) (d : db_status)
          (ds : list (db_status * db_status)),
      notifications
        (snd (main_loop (map (on_table t) ds)
                (fst (iteration (on_table t (Available, d)) s))))
      = [])
  /\ (forall (s : session) (t : table) (ds : list (db_status * db_status)),
         count t <= last_record_count s \/ count t <= 0 ->
         notifications (snd (main_loop (map (on_table t) ds) s)) = []
         /\ fst (main_loop (map (on_table t) ds) s) = s).
Proof.
  split; [|intros s t ds H; now apply main_loop_nothing_new].
  intros s t d ds. apply main_loop_nothing_new.
  assert (V : count_value (on_table t (Available, d)) = count t) by reflexivity.
  destruct (iteration_count (on_table t (Available, d)) s)
    as [[_ E] | [G E]]; rewrite E.
  - rewrite V. lia.
  - unfold guard in G. rewrite V in G. lia.
Qed.

(** C9, amended.  [main] enters its loop with [last_record_count] set to
    what [get_record_count] returned at startup: the number of rows when
    that read went through, [-1] when it raised.  A tick shows a row only
    if its count read goes through and returns more than that.  When the
    startup read went through, the table only grows and timestamps grow
    with it, the row shown was not in the table at startup. *)
Theorem C9_shown_only_after_count_exceeds_startup :
  (forall (start : read),
      fst (startup start)
      = {| last_record_count := fst (get_record_count start);
           last_state := None |}
      /\ (fst start = Available ->
          last_record_count (fst (startup start)) = count (snd start)))
  /\ (forall (start : read) (before : list tick) (k : tick) (r : row),
         notifications
           (snd (iteration k (fst (main_loop before (fst (startup start))))))
         = [r] ->
         fst (count_read k) = Available
         /\ fst (get_record_count start) < count (snd (count_read k)))
  /\ (forall (t0 new later : table) (before : list tick) (k : tick) (r : row),
         notifications
           (snd (iteration k
                   (fst (main_loop before (fst (startup (Available, t0)))))))
         = [r] ->
         snd (count_read k) = t0 ++ new ->
         snd (latest_read k) = t0 ++ new ++ later ->
         increasing (t0 ++ new ++ later) ->
         ~ In r t0).
Proof.
  assert (Guard : forall start before k r,
             notifications
               (snd (iteration k
                       (fst (main_loop before (fst (startup start))))))
             = [r] ->
             fst (count_read k) = Available
             /\ fst (get_record_count start) < count (snd (count_read k))
             /\ latest_value k = Some r).
  { intros start before k r N. apply iteration_shows_iff in N.
    destruct N as [[G1 G2] [L _]].
    pose proof (main_loop_count_le before (fst (startup start))) as M.
    rewrite (proj1 (startup_session start)) in M at 1.
    cbn [last_record_count] in M.
    destruct (count_value_cases k) as [[A [V _]] | [_ [V _]]].
    - rewrite V in *. repeat split; [assumption | lia | assumption].
    - rewrite V in G2. lia. }
  split; [|split].
  - intros start. split; [apply startup_session|].
    rewrite (proj1 (startup_session start)). cbn [last_record_count].
    unfold get_record_count. now intros ->.
  - intros start before k r N.
    destruct (Guard start before k r N) as [A [B _]]. now split.
  - intros t0 new later before k r N Ec El S.
    destruct (Guard (Available, t0) before k r N) as [_ [B L]].
    cbn in B. rewrite Ec in B. unfold count in B.
    rewrite length_app in B.
    assert (NE : new ++ later <> []).
    { destruct new; [cbn in B; lia | discriminate]. }
    destruct (latest_value_cases k) as [[_ [V _]] | [_ [V _]]];
      rewrite V in L; [|discriminate].
    rewrite El in L.
    rewrite (select_latest_increasing _ r) in L
      by first [assumption | destruct t0; [exact NE | discriminate]].
    injection L as L. rewrite <- L.
    assert (E : last (t0 ++ new ++ later) r = last (new ++ later) r).
    { clear - NE. induction t0 as [|x t0 IH]; [reflexivity|].
      cbn [app]. rewrite <- IH.
      destruct (t0 ++ new ++ later) eqn:Q; [|reflexivity].
      apply app_eq_nil in Q. destruct Q as [_ Q]. congruence. }
    rewrite E. now apply last_appended_is_new.
Qed.

(** C10.  An iteration shows at most one row, the row the LIMIT 1 query
    returns: a row of the table that no row exceeds in timestamp.  Of the
    table an iteration uses only the count and that row.  Over a run
    every row shown is the latest row of the table at its tick; with
    timestamps that grow it is the newest row, so of several rows added
    between two ticks the earlier ones are not shown. *)
Theorem C10_at_most_one_row_the_latest :
  (forall (k : tick) (s : session),
      (List.length (notifications (snd (iteration k s))) <= 1)%nat)
  /\ (forall (k : tick) (s : session) (r : row),
         In r (notifications (snd (iteration k s))) ->
         fst (latest_read k) = Available
         /\ select_latest (snd (latest_read k)) = Some r
         /\ forall x, In x (snd (latest_read k)) ->
                      ~ str_lt (timestamp r) (timestamp x))
  /\ (forall (t t' : table) (d : db_status * db_status) (s : session),
         count t = count t' -> select_latest t = select_latest t' ->
         iteration (on_table t d) s = iteration (on_table t' d) s)
  /\ (forall (ticks : list tick) (s : session) (r : row),
         In r (notifications (snd (main_loop ticks s))) ->
         exists k, In k ticks /\ select_latest (snd (latest_read k)) = Some r)
  /\ (forall (t batch : table) (s : session) (x d : row),
         increasing (t ++ batch) ->
         In x (notifications (snd (iteration (quiet (t ++ batch)) s))) ->
         batch <> [] ->
         x = last batch d).
Proof.
  assert (One : forall k s r,
             In r (notifications (snd (iteration k s))) ->
             fst (latest_read k) = Available
             /\ select_latest (snd (latest_read k)) = Some r).
  { intros k s r I.
    destruct (iteration_outcome k s) as [[N _] | [q [N [_ [_ [L _]]]]]];
      rewrite N in I; [destruct I|].
    destruct I as [<- | []].
    destruct (latest_value_cases k) as [[A [V _]] | [_ [V _]]];
      rewrite V in L; [now split | discriminate]. }
  split; [|split; [|split; [|split]]].
  - intros k s.
    destruct (iteration_outcome k s) as [[N _] | [q [N _]]]; rewrite N;
      cbn; lia.
  - intros k s r I. destruct (One k s r I) as [A E].
    repeat split; try assumption.
    intros x Ix L. apply str_ltb_lt in L.
    rewrite (proj2 (select_latest_greatest _ _ E) x Ix) in L. discriminate.
  - intros t t' d s Ec El. unfold iteration, on_table, get_record_count,
      query_latest_state. cbn [count_read latest_read fst snd].
    now rewrite Ec, El.
  - intros ticks. induction ticks as [|k rest IH]; intros s r I;
      [destruct I|].
    rewrite main_loop_cons in I. cbn [snd] in I.
    rewrite notifications_app in I. apply in_app_or in I.
    destruct I as [I | I].
    + exists k. split; [now left|]. exact (proj2 (One k s r I)).
    + destruct (IH _ _ I) as [k' [Ik E]]. exists k'. split; [now right|].
      exact E.
  - intros t batch s x d S I NE.
    destruct (One _ _ _ I) as [_ E]. cbn [quiet latest_read snd] in E.
    rewrite (select_latest_increasing _ d) in E
      by first [assumption | destruct t; [exact NE | discriminate]].
    injection E as <-.
    clear - NE. induction t as [|y t IH]; [reflexivity|].
    cbn [app]. rewrite <- IH.
    destruct (t ++ batch) eqn:Q; [|reflexivity].
    apply app_eq_nil in Q. destruct Q as [_ Q]. congruence.
Qed.

End MonitorSpec.

(** *** The sample rows *)

Module MonitorSamples.
Import Text Store Monitor Vocabulary TextFacts StoreFacts MonitorFacts
  MonitorSpec.
Import Examples.

Open Scope Z_scope.

Lemma sample_rows_increasing : increasing [row1; row2; row3].
Proof.
  unfold increasing.
  repeat first [apply Sorted_cons | apply Sorted_nil
               | apply HdRel_cons | apply HdRel_nil];
    vm_compute; reflexivity.
Qed.

(** A row that is in the table when the poller starts is not shown, although
    no row has been shown yet and the latest read would return it. *)
Lemma C1_row_present_at_startup_is_not_shown :
  last_state (fst (startup (Available, [row1]))) = None
  /\ fst (query_latest_state (Available, [row1])) = Some row1
  /\ notifications
       (main true (Available, [row1]) [quiet [row1]; quiet [row1]]) = [].
Proof. vm_compute. repeat split. Qed.

Lemma C1_second_row_is_shown :
  notifications
    (snd (iteration (quiet [row1; row2])
            {| last_record_count := 1; last_state := Some row1 |}))
  = [row2].
Proof.
  apply (proj1 C1_shown_iff_count_grew_and_row_changed).
  split; [|split].
  - vm_compute. split; reflexivity.
  - vm_compute. reflexivity.
  - left. vm_compute. discriminate.
Defined.

Lemma C5_three_appends :
  query_latest_state (Available, appended [row1; row2; row3] [])
  = (Some row3, []).
Proof.
  refine (proj2 (C5_latest_is_last_append [row1; row2; row3] row1 _)
            sample_rows_increasing).
  discriminate.
Defined.

(** When the clock steps back between two appends the row of the first
    one stays the latest. *)
Lemma latest_after_clock_step_back :
  query_latest_state (Available, appended [row2; row1] []) = (Some row2, []).
Proof. vm_compute. reflexivity. Qed.

(** The latest read fails on the tick that sees [row1] arrive; every read
    of the next three ticks goes through, and [row1] is not shown.  With
    no failure the first tick shows it. *)
Lemma C6_row_skipped_after_failed_latest_read :
  notifications
    (main true (Available, [])
       [on_table [row1] (Available, Failing);
        quiet [row1]; quiet [row1]; quiet [row1]]) = []
  /\ notifications (main true (Available, []) [quiet [row1]]) = [row1].
Proof. vm_compute. split; reflexivity. Qed.

Lemma C6_failed_reads_on_sample :
  iteration {| count_read := (Failing, [row1]);
               latest_read := (Available, [row1]) |}
    {| last_record_count := 0; last_state := None |}
  = ({| last_record_count := 0; last_state := None |}, [Print_count_error])
  /\ iteration {| count_read := (Available, [row1]);
                  latest_read := (Failing, [row1]) |}
       {| last_record_count := 0; last_state := None |}
     = ({| last_record_count := 1; last_state := None |}, [Print_query_error]).
Proof.
  pose proof C6_failed_read_is_logged_and_shows_nothing as [A B].
  split.
  - exact (proj1 (A [row1] (Available, [row1])
                    {| last_record_count := 0; last_state := None |} [])).
  - refine (proj1 (proj1 (B [row1] [row1]
                            {| last_record_count := 0; last_state := None |}
                            []) _)).
    vm_compute. split; reflexivity.
Defined.

Lemma C8_quiet_ticks_on_sample :
  notifications
    (snd (main_loop
            (map (on_table [row1; row2])
               [(Available, Available); (Failing, Available);
                (Available, Failing)])
            {| last_record_count := 2; last_state := Some row2 |}))
  = [].
Proof.
  refine (proj1 (proj2 C8_ticks_on_unchanged_table_show_nothing
                   {| last_record_count := 2; last_state := Some row2 |}
                   [row1; row2] _ _)).
  left. vm_compute. discriminate.
Defined.

Lemma C9_new_row_on_sample :
  notifications
    (snd (iteration
            {| count_read := (Available, [row1; row2]);
               latest_read := (Available, [row1; row2; row3]) |}
            (fst (startup (Available, [row1])))))
  = [row3]
  /\ ~ In row3 [row1].
Proof.
  assert (N : notifications
                (snd (iteration
                        {| count_read := (Available, [row1; row2]);
                           latest_read := (Available, [row1; row2; row3]) |}
                        (fst (main_loop [] (fst (startup (Available, [row1])))))))
              = [row3]) by (vm_compute; reflexivity).
  split; [exact N|].
  refine (proj2 (proj2 C9_shown_only_after_count_exceeds_startup)
            [row1] [row2] [row3] [] _ row3 N _ _ sample_rows_increasing);
    vm_compute; reflexivity.
Defined.

Lemma C10_batch_on_sample :
  notifications
    (snd (iteration (quiet ([row1] ++ [row2; row3]))
            {| last_record_count := 1; last_state := Some row1 |}))
  = [row3]
  /\ row3 = last [row2; row3] row1.
Proof.
  assert (N : notifications
                (snd (iteration (quiet ([row1] ++ [row2; row3]))
                        {| last_record_count := 1; last_state := Some row1 |}))
              = [row3]) by (vm_compute; reflexivity).
  split; [exact N|].
  refine (proj2 (proj2 (proj2 (proj2 C10_at_most_one_row_the_latest)))
            [row1] [row2; row3]
            {| last_record_count := 1; last_state := Some row1 |}
            row3 row1 sample_rows_increasing _ _).
  - rewrite N. now left.
  - discriminate.
Defined.

End MonitorSamples.

(** ** Whole runs of the listener *)

Module ListenerRun.
Import Text Utf8 Regex Store SyslogRead Vocabulary RunVocabulary.
Import TextFacts ParserFacts ListenerFacts StoreFacts.
Import Examples.

Section Runs.

Variable unicode_alnum : codepoint -> bool.

Local Abbreviation parse := (parse_operating_state unicode_alnum).

(** One datagram, by its token and the state of the database. *)
Lemma process_by_token (a : arrival) (sv : server) :
  process unicode_alnum a sv
  = match token_of unicode_alnum a with
    | Some X =>
        {| current_state := X;
           db_table := db_table sv ++ option_list (row_of unicode_alnum a);
           log := log sv
                    ++ Info_operating_state X (fst (addr a)) (snd (addr a))
                    :: match db a with
                       | Available =>
                           [Info_logged
                              (mkRow (now a) (fst (addr a)) (snd (addr a)) X)]
                       | Failing => [Error_log_to_database]
                       end |}
    | None =>
        {| current_state := current_state sv;
           db_table := db_table sv;
           log := log sv
                    ++ [if contains marker (decode (data a))
                        then Info_no_state_found else Debug_ignored] |}
    end.
Proof.
  unfold token_of, row_of, token_of.
  destruct (contains marker (decode (data a))) eqn:R.
  - destruct (parse (decode (data a))) as [X|] eqn:P.
    + rewrite (process_parsed unicode_alnum a sv X R P).
      unfold log_to_database, insert. destruct (db a); cbn [option_list].
      * reflexivity.
      * now rewrite app_nil_r.
    + unfold process. now rewrite relevant_iff_marker, R, P.
  - now apply process_irrelevant.
Qed.

Lemma iteration_table_grows (e : event) (sv : server) :
  db_table (iteration unicode_alnum e sv)
  = db_table sv ++ rows_of unicode_alnum [e].
Proof.
  unfold rows_of. cbn [flat_map]. rewrite app_nil_r.
  destruct e as [a|]; cbn [iteration db_table].
  - rewrite process_by_token. unfold row_of.
    destruct (token_of unicode_alnum a); cbn [db_table option_list];
      [reflexivity | now rewrite app_nil_r].
  - now rewrite app_nil_r.
Qed.

Lemma rows_of_cons (e : event) (rest : list event) :
  rows_of unicode_alnum (e :: rest)
  = rows_of unicode_alnum [e] ++ rows_of unicode_alnum rest.
Proof. unfold rows_of. cbn [flat_map]. now rewrite app_nil_r. Qed.

Lemma receive_loop_table_rows (events : list event) (sv : server) :
  db_table (receive_loop unicode_alnum events sv)
  = db_table sv ++ rows_of unicode_alnum events.
Proof.
  revert sv; induction events as [|e rest IH]; intros sv.
  - cbn [receive_loop]. unfold rows_of. cbn [flat_map]. now rewrite app_nil_r.
  - cbn [receive_loop].
    rewrite IH, iteration_table_grows, (rows_of_cons e rest).
    symmetry. apply app_assoc.
Qed.

Lemma rows_of_length (events : list event) :
  (List.length (rows_of unicode_alnum events) <= List.length events)%nat.
Proof.
  induction events as [|e rest IH]; [cbn; lia|].
  rewrite (rows_of_cons e rest), length_app. cbn [List.length].
  unfold rows_of at 1. cbn [flat_map]. rewrite app_nil_r.
  destruct e as [a|]; [|cbn; lia].
  destruct (row_of unicode_alnum a); cbn; lia.
Qed.

(** X1.  The loop only appends: the table after a run is the table before
    it followed by one row for each datagram that passes the relevance
    check, carries a token and meets a working database, in the order of
    arrival; so no row is changed or removed and a run adds at most one
    row per event. *)
Theorem receive_loop_appends_rows_in_order :
  forall (events : list event) (sv : server),
    db_table (receive_loop unicode_alnum events sv)
    = db_table sv ++ rows_of unicode_alnum events
    /\ (List.length (rows_of unicode_alnum events) <= List.length events)%nat.
Proof.
  intros events sv. split; [apply receive_loop_table_rows | apply rows_of_length].
Qed.

Lemma in_rows_of (events : list event) (r : row) :
  In r (rows_of unicode_alnum events)
  <-> exists a, In (Datagram a) events /\ row_of unicode_alnum a = Some r.
Proof.
  unfold rows_of. rewrite in_flat_map. split.
  - intros [[a|] [I H]]; [|destruct H]. exists a. split; [assumption|].
    destruct (row_of unicode_alnum a) as [q|]; [|destruct H].
    destruct H as [<- | []]. reflexivity.
  - intros [a [I E]]. exists (Datagram a). split; [assumption|].
    rewrite E. now left.
Qed.

(** X2.  Every row a run adds comes from one of its datagrams: the text of
    that datagram contains the marker and its leftmost fragment holds the
    stored state, which is neither empty nor changed on the way; the
    address and the timestamp are the sender's and the clock's. *)
Theorem stored_row_comes_from_a_datagram :
  forall (events : list event) (sv : server) (r : row),
    In r (db_table (receive_loop unicode_alnum events sv)) ->
    In r (db_table sv)
    \/ exists a,
         In (Datagram a) events
         /\ db a = Available
         /\ contains marker (decode (data a)) = true
         /\ parse (decode (data a)) = Some (operating_state r)
         /\ operating_state r <> []
         /\ Forall (fun c => is_word unicode_alnum c = true) (operating_state r)
         /\ timestamp r = now a
         /\ (ip_address r, port r) = addr a.
Proof.
  intros events sv r I. rewrite receive_loop_table_rows in I.
  apply in_app_or in I. destruct I as [I | I]; [now left | right].
  apply in_rows_of in I. destruct I as [a [Ia E]]. exists a.
  unfold row_of, token_of in E.
  destruct (contains marker (decode (data a))) eqn:R; [|discriminate].
  destruct (parse (decode (data a))) as [X|] eqn:P; [|discriminate].
  destruct (db a) eqn:D; [|discriminate].
  injection E as <-. cbn [operating_state timestamp ip_address port].
  pose proof P as P'. apply parse_some_iff in P'.
  destruct P' as [pre [[rest [_ [NE [W _]]]] _]].
  repeat split; try assumption; try reflexivity.
  now destruct (addr a).
Qed.

(** X3.  A datagram whose text contains the marker but no well-formed
    fragment stores nothing and leaves [current_state] alone; the only
    trace is an informational record, no error. *)
Theorem relevant_without_field_is_only_noted :
  forall (a : arrival) (sv : server),
    contains marker (decode (data a)) = true ->
    (forall pre X, ~ fragment_at unicode_alnum pre X (decode (data a))) ->
    process unicode_alnum a sv
    = {| current_state := current_state sv;
         db_table := db_table sv;
         log := log sv ++ [Info_no_state_found] |}.
Proof.
  intros a sv R H. apply parse_none_iff in H.
  rewrite process_by_token. unfold token_of. now rewrite R, H.
Qed.

Lemma tokens_of_cons (e : event) (rest : list event) :
  tokens_of unicode_alnum (e :: rest)
  = match e with
    | Datagram a => option_list (token_of unicode_alnum a)
    | Recv_error => []
    end ++ tokens_of unicode_alnum rest.
Proof. reflexivity. Qed.

Lemma current_state_last_token (events : list event) (sv : server) :
  current_state (receive_loop unicode_alnum events sv)
  = last (tokens_of unicode_alnum events) (current_state sv).
Proof.
  revert sv; induction events as [|e rest IH]; intros sv; [reflexivity|].
  cbn [receive_loop]. rewrite IH, tokens_of_cons.
  destruct e as [a|]; cbn [iteration]; [|reflexivity].
  rewrite process_by_token.
  destruct (token_of unicode_alnum a) as [X|]; cbn [current_state option_list app].
  - now rewrite last_cons_default.
  - reflexivity.
Qed.

(** X4.  [current_state] is the token of the last datagram that carried
    one, whether or not its insert went through, and the value before the
    run if there was none; so after a failed insert it names a state the
    table does not hold. *)
Theorem current_state_is_last_token :
  forall (events : list event) (sv : server),
    current_state (receive_loop unicode_alnum events sv)
    = last (tokens_of unicode_alnum events) (current_state sv)
    /\ forall (a : arrival) (X : pystr),
         token_of unicode_alnum a = Some X ->
         db a = Failing ->
         current_state (process unicode_alnum a sv) = X
         /\ db_table (process unicode_alnum a sv) = db_table sv.
Proof.
  intros events sv. split; [apply current_state_last_token|].
  intros a X T D. rewrite process_by_token, T. unfold row_of.
  rewrite T, D. cbn [current_state db_table option_list].
  now rewrite app_nil_r.
Qed.

Lemma logged_rows_app (l1 l2 : list log_record) :
  logged_rows (l1 ++ l2) = logged_rows l1 ++ logged_rows l2.
Proof.
  induction l1 as [|x l1 IH]; [reflexivity|].
  destruct x; cbn [app logged_rows]; now rewrite IH.
Qed.

Lemma receive_loop_logged_rows (events : list event) (sv : server) :
  logged_rows (log (receive_loop unicode_alnum events sv))
  = logged_rows (log sv) ++ rows_of unicode_alnum events.
Proof.
  revert sv; induction events as [|e rest IH]; intros sv.
  - cbn [receive_loop]. unfold rows_of. cbn [flat_map]. now rewrite app_nil_r.
  - cbn [receive_loop]. rewrite IH, (rows_of_cons e rest), app_assoc.
    f_equal. unfold rows_of. cbn [flat_map]. rewrite app_nil_r.
    destruct e as [a|]; cbn [iteration log].
    + rewrite process_by_token. unfold row_of.
      destruct (token_of unicode_alnum a) as [X|]; cbn [log];
        rewrite logged_rows_app.
      * destruct (db a); reflexivity.
      * destruct (contains marker (decode (data a))); cbn;
          now rewrite app_nil_r.
    + rewrite logged_rows_app. cbn. now rewrite app_nil_r.
Qed.

(** X5.  The log and the table agree: after a run of the server the table
    holds the rows it started with followed by exactly the rows the log
    reports as written, in the same order. *)
Theorem table_is_start_plus_logged_rows :
  forall (events : list event) (t : table),
    db_table (start_syslog_server unicode_alnum events t)
    = t ++ logged_rows (log (start_syslog_server unicode_alnum events t)).
Proof.
  intros events t. unfold start_syslog_server.
  now rewrite receive_loop_table_rows, receive_loop_logged_rows.
Qed.

(** X8.  A returned token stands in the text between [newState="] and a
    closing quote, character for character; a text without [newState="]
    yields no token. *)
Theorem token_is_quoted_in_the_text :
  forall (message : pystr),
    (forall X, parse message = Some X ->
               contains (str_of "newState=" ++ dquote :: X ++ [dquote]) message
               = true)
    /\ (contains (str_of "newState=" ++ [dquote]) message = false ->
        parse message = None).
Proof.
  intros message.
  assert (Q : forall X, parse message = Some X ->
                exists pre post,
                  message
                  = pre ++ str_of "newState=" ++ dquote :: X ++ dquote :: post).
  { intros X P. apply parse_some_iff in P.
    destruct P as [pre [[rest [-> [_ [_ [post ->]]]]] _]]. now exists pre, post. }
  split.
  - intros X P. destruct (Q X P) as [pre [post ->]].
    apply contains_infix. exists pre, post. f_equal.
    rewrite <- app_assoc. cbn [app]. now rewrite <- app_assoc.
  - intros C. destruct (parse message) as [X|] eqn:P; [|reflexivity].
    destruct (Q X eq_refl) as [pre [post E]].
    exfalso. eapply contains_false_no_infix with (pre := pre)
      (post := X ++ dquote :: post); [exact C|].
    rewrite E. now rewrite <- app_assoc.
Qed.

End Runs.

End ListenerRun.

(** ** The decoder *)

Module DecoderFacts.
Import Text Utf8 Regex Store SyslogRead Vocabulary RunVocabulary.
Import TextFacts ListenerFacts.

Lemma shiftl_6 (x : N) : N.shiftl x 6 = x * 64.
Proof. now rewrite N.shiftl_mul_pow2. Qed.

Lemma shiftl_12 (x : N) : N.shiftl x 12 = x * 4096.
Proof. now rewrite N.shiftl_mul_pow2. Qed.

Lemma shiftl_18 (x : N) : N.shiftl x 18 = x * 262144.
Proof. now rewrite N.shiftl_mul_pow2. Qed.

Lemma is_continuation_high (b : N) : is_continuation b = true -> 128 <= b.
Proof.
  unfold is_continuation. rewrite andb_true_iff, N.leb_le. tauto.
Qed.

Lemma good_second3 (ch ch2 : N) :
  bad_second3 ch ch2 = false ->
  128 <= ch2 /\ (ch = 0xE0 -> 0xA0 <= ch2).
Proof.
  unfold bad_second3. rewrite orb_false_iff, negb_false_iff.
  intros [C H]. split; [now apply is_continuation_high|].
  intros ->. destruct (ch2 <? 0xA0) eqn:L; [discriminate|].
  now apply N.ltb_ge in L.
Qed.

Lemma good_second4 (ch ch2 : N) :
  bad_second4 ch ch2 = false ->
  128 <= ch2 /\ (ch = 0xF0 -> 0x90 <= ch2).
Proof.
  unfold bad_second4. rewrite orb_false_iff, negb_false_iff.
  intros [C H]. split; [now apply is_continuation_high|].
  intros ->. destruct (ch2 <? 0x90) eqn:L; [discriminate|].
  now apply N.ltb_ge in L.
Qed.

Lemma ascii_part_high (b : N) (s : list N) :
  128 <= b -> ascii_part (b :: s) = ascii_part s.
Proof.
  intros H. unfold ascii_part. cbn [filter].
  apply N.ltb_ge in H. now rewrite H.
Qed.

Lemma ascii_part_low (b : N) (s : list N) :
  b < 128 -> ascii_part (b :: s) = b :: ascii_part s.
Proof.
  intros H. unfold ascii_part. cbn [filter].
  apply N.ltb_lt in H. now rewrite H.
Qed.

(** What decoding keeps and what it can drop, by recursion on the number
    of bytes. *)
Lemma decode_values_ascii_part (n : nat) :
  forall s : list N,
    (List.length s <= n)%nat ->
    ascii_part (decode_values s) = ascii_part s
    /\ (List.length (decode_values s) <= List.length s)%nat.
Proof.
  induction n as [|n IH]; intros s L.
  - destruct s; [split; [reflexivity | cbn; lia] | cbn in L; lia].
  - destruct s as [|ch t1]; [split; [reflexivity | cbn; lia]|].
    cbn [List.length] in L.
    assert (I1 := IH t1 ltac:(lia)).
    cbn [decode_values].
    destruct (ch <? 0x80) eqn:A.
    { apply N.ltb_lt in A. cbn [List.length].
      rewrite !ascii_part_low by assumption.
      destruct I1 as [E B]. rewrite E. split; [reflexivity | lia]. }
    apply N.ltb_ge in A.
    rewrite (ascii_part_high ch t1) by lia.
    destruct (ch <? 0xC2) eqn:B1.
    { cbn [List.length]. destruct I1; split; [assumption | lia]. }
    apply N.ltb_ge in B1.
    destruct (ch <? 0xE0) eqn:B2.
    { destruct t1 as [|ch2 t2]; [split; [reflexivity | cbn; lia]|].
      cbn [List.length] in *.
      destruct (negb (is_continuation ch2)) eqn:C.
      - destruct I1; split; [assumption | lia].
      - apply negb_false_iff, is_continuation_high in C.
        assert (I2 := IH t2 ltac:(lia)). destruct I2 as [E2 L2].
        rewrite shiftl_6. cbn [List.length].
        rewrite !ascii_part_high by (cbn; lia).
        split; [assumption | lia]. }
    apply N.ltb_ge in B2.
    destruct (ch <? 0xF0) eqn:B3.
    { destruct t1 as [|ch2 t2]; [split; [reflexivity | cbn; lia]|].
      cbn [List.length] in *.
      destruct (bad_second3 ch ch2) eqn:C.
      - destruct I1; split; [assumption | lia].
      - apply good_second3 in C. destruct C as [C2 C2'].
        destruct t2 as [|ch3 t3].
        + rewrite ascii_part_high by assumption. split; [reflexivity | cbn; lia].
        + cbn [List.length] in *.
          assert (I2 := IH (ch3 :: t3) ltac:(cbn; lia)). destruct I2 as [E2 L2].
          destruct (negb (is_continuation ch3)) eqn:D.
          * rewrite (ascii_part_high ch2) by assumption.
            cbn [List.length] in *. split; [assumption | lia].
          * apply negb_false_iff, is_continuation_high in D.
            assert (I3 := IH t3 ltac:(lia)). destruct I3 as [E3 L3].
            rewrite shiftl_12, shiftl_6. cbn [List.length].
            assert (H : 128 <= ch * 4096 + ch2 * 64 + ch3
                               - (N.shiftl 224 12 + N.shiftl 128 6 + 128)).
            { change (N.shiftl 224 12 + N.shiftl 128 6 + 128) with 925824.
              destruct (N.eq_dec ch 0xE0) as [-> | NE];
                [specialize (C2' eq_refl) |]; lia. }
            rewrite !ascii_part_high by assumption.
            split; [assumption | lia]. }
    apply N.ltb_ge in B3.
    destruct (ch <? 0xF5) eqn:B4.
    { destruct t1 as [|ch2 t2]; [split; [reflexivity | cbn; lia]|].
      cbn [List.length] in *.
      destruct (bad_second4 ch ch2) eqn:C.
      - destruct I1; split; [assumption | lia].
      - apply good_second4 in C. destruct C as [C2 C2'].
        destruct t2 as [|ch3 t3].
        + rewrite ascii_part_high by assumption. split; [reflexivity | cbn; lia].
        + cbn [List.length] in *.
          assert (I2 := IH (ch3 :: t3) ltac:(cbn; lia)). destruct I2 as [E2 L2].
          destruct (negb (is_continuation ch3)) eqn:D.
          * rewrite (ascii_part_high ch2) by assumption.
            cbn [List.length] in *. split; [assumption | lia].
          * apply negb_false_iff, is_continuation_high in D.
            destruct t3 as [|ch4 t4].
            -- rewrite !ascii_part_high by assumption.
               split; [reflexivity | cbn; lia].
            -- cbn [List.length] in *.
               assert (I3 := IH (ch4 :: t4) ltac:(cbn; lia)).
               destruct I3 as [E3 L3].
               destruct (negb (is_continuation ch4)) eqn:F.
               ++ rewrite (ascii_part_high ch2), (ascii_part_high ch3)
                    by assumption.
                  cbn [List.length] in *. split; [assumption | lia].
               ++ apply negb_false_iff, is_continuation_high in F.
                  assert (I4 := IH t4 ltac:(lia)). destruct I4 as [E4 L4].
                  rewrite shiftl_18, shiftl_12, shiftl_6. cbn [List.length].
                  assert (H : 128 <= ch * 262144 + ch2 * 4096 + ch3 * 64 + ch4
                                     - (N.shiftl 240 18 + N.shiftl 128 12
                                        + N.shiftl 128 6 + 128)).
                  { change (N.shiftl 240 18 + N.shiftl 128 12
                            + N.shiftl 128 6 + 128) with 63447168.
                    destruct (N.eq_dec ch 0xF0) as [-> | NE];
                      [specialize (C2' eq_refl) |]; lia. }
                  rewrite !ascii_part_high by assumption.
                  split; [assumption | lia]. }
    cbn [List.length]. destruct I1; split; [assumption | lia].
Qed.

Lemma ascii_part_app (a b : list N) :
  ascii_part (a ++ b) = ascii_part a ++ ascii_part b.
Proof. apply filter_app. Qed.

Lemma ascii_part_all_low (s : list N) :
  forallb (fun b => b <? 128) s = true -> ascii_part s = s.
Proof.
  induction s as [|b s IH]; [reflexivity|]. cbn [forallb].
  rewrite andb_true_iff. intros [B H]. unfold ascii_part. cbn [filter].
  rewrite B. f_equal. now apply IH.
Qed.

(** A text of characters below U+0080 found in [s] is found in its ASCII
    part as well. *)
Lemma contains_ascii_part (needle s : list N) :
  forallb (fun b => b <? 128) needle = true ->
  contains needle s = true -> contains needle (ascii_part s) = true.
Proof.
  intros A C. apply contains_infix in C. destruct C as [pre [post ->]].
  apply contains_infix. exists (ascii_part pre), (ascii_part post).
  now rewrite !ascii_part_app, (ascii_part_all_low needle A).
Qed.

(** X6.  Lossy decoding neither drops nor invents a character below
    U+0080: the ASCII characters of the decoded text are the bytes below
    0x80 of the datagram, in order; and the text is never longer than the
    datagram. *)
Theorem decode_keeps_the_ascii_bytes :
  forall (data : list Byte.byte),
    ascii_part (decode data) = ascii_part (byte_values data)
    /\ (List.length (decode data) <= List.length data)%nat.
Proof.
  intros data. unfold decode.
  destruct (decode_values_ascii_part (List.length (byte_values data))
              (byte_values data) (Nat.le_refl _)) as [E L].
  split; [exact E|]. unfold byte_values in L at 2.
  now rewrite length_map in L.
Qed.

(** X7.  A datagram passes the relevance check only if its bytes below
    0x80, read in order, contain [SE_OPMOD_CHANGED]: bytes from 0x80 up
    can be dropped from inside the marker but never make up for a missing
    character of it. *)
Theorem relevant_datagram_spells_the_marker :
  forall (data : list Byte.byte),
    existsb (fun msg => contains msg (decode data)) relevant_messages = true ->
    contains marker (ascii_part (byte_values data)) = true.
Proof.
  intros data R.
  assert (C : contains marker (decode data) = true).
  { unfold relevant_messages in R. cbn [existsb] in R.
    now rewrite orb_false_r in R. }
  unfold decode in *.
  rewrite <- (proj1 (decode_values_ascii_part _ (byte_values data)
                       (Nat.le_refl _))).
  apply contains_ascii_part; [|exact C]. vm_compute. reflexivity.
Qed.

End DecoderFacts.

(** ** Start-up of the server *)

Module SetupFacts.
Import Text Utf8 Regex Store SyslogRead Vocabulary RunVocabulary Setup.
Import TextFacts ParserFacts ListenerFacts StoreFacts ListenerRun.

Section Server.

Variable unicode_alnum : codepoint -> bool.

Lemma on_existing_table (t : table) (events : list event) :
  map (on_database (Some t)) events = events.
Proof.
  induction events as [|e rest IH]; [reflexivity|].
  cbn [map]. rewrite IH. now destruct e.
Qed.

Lemma token_without_table (a : arrival) :
  token_of unicode_alnum
    {| data := data a; addr := addr a; now := now a; db := Failing |}
  = token_of unicode_alnum a.
Proof. reflexivity. Qed.

Lemma rows_without_table (events : list event) :
  rows_of unicode_alnum (map (on_database None) events) = []
  /\ tokens_of unicode_alnum (map (on_database None) events)
     = tokens_of unicode_alnum events.
Proof.
  induction events as [|e rest [IH1 IH2]]; [split; reflexivity|].
  cbn [map]. rewrite (rows_of_cons unicode_alnum), !tokens_of_cons, IH1, IH2.
  rewrite app_nil_r. destruct e as [a|]; [|split; reflexivity].
  cbn [on_database]. rewrite token_without_table. split; [|reflexivity].
  unfold rows_of, row_of. cbn [flat_map]. rewrite token_without_table.
  cbn [db]. now destruct (token_of unicode_alnum a).
Qed.

(** X10.  Whatever [init_database] and [bind] do, a run of
    [start_syslog_server] keeps the rows that were in the table: the
    database ends with those rows followed by the rows of the accepted
    datagrams when the socket was bound, and with those rows alone, no
    datagram having been read, when [bind] raised. *)
Theorem start_syslog_server_keeps_existing_rows :
  forall (init : db_status) (bind : bind_outcome) (events : list event)
         (t : table),
    final_database (Setup.start_syslog_server unicode_alnum init bind events
                      (Some t))
    = Some (t ++ match bind with
                 | Bound => rows_of unicode_alnum events
                 | _ => []
                 end)
    /\ (bind <> Bound ->
        served (Setup.start_syslog_server unicode_alnum init bind events
                  (Some t)) = None).
Proof.
  intros init bind events t. unfold Setup.start_syslog_server.
  assert (E : init_database init (Some t)
              = (Some t, snd (init_database init (Some t))))
    by (destruct init; reflexivity).
  rewrite E. destruct bind; cbn [final_database served].
  - rewrite on_existing_table, receive_loop_table_rows. cbn [db_table].
    split; [reflexivity | congruence].
  - rewrite app_nil_r. split; reflexivity.
  - rewrite app_nil_r. split; reflexivity.
Qed.

(** X11.  A failed [init_database] does not stop the server.  When the
    table is missing and stays missing the loop still runs: it stores no
    row and reports none as written, while [current_state] follows the
    tokens as usual. *)
Theorem server_without_table_stores_nothing :
  forall (events : list event),
    let o := Setup.start_syslog_server unicode_alnum Failing Bound events None in
    final_database o = None
    /\ exists sv,
         served o = Some sv
         /\ db_table sv = []
         /\ logged_rows (log sv) = []
         /\ current_state sv
            = last (tokens_of unicode_alnum events) (str_of "UNKNOWN").
Proof.
  intros events o. unfold o, Setup.start_syslog_server.
  cbn [init_database final_database served]. split; [reflexivity|].
  eexists. split; [reflexivity|].
  destruct (rows_without_table events) as [R T].
  rewrite receive_loop_table_rows, receive_loop_logged_rows,
    current_state_last_token, R, T.
  repeat split.
Qed.

(** X9.  Restarting the server loses nothing.  A first run whose
    [init_database] goes through creates the table when the file had
    none; a second run on the database the first one left, whether its
    own [init_database] goes through or raises, ends with the rows that
    were there at the start, then the rows accepted in the first run,
    then those accepted in the second. *)
Theorem restarted_server_keeps_all_rows :
  forall (init2 : db_status) (events1 events2 : list event) (d : database),
    let first :=
      Setup.start_syslog_server unicode_alnum Available Bound events1 d in
    let second :=
      Setup.start_syslog_server unicode_alnum init2 Bound events2
        (final_database first) in
    final_database second
    = Some (match d with
            | Some t => t
            | None => []
            end
            ++ rows_of unicode_alnum events1 ++ rows_of unicode_alnum events2).
Proof.
  intros init2 events1 events2 d first second.
  assert (F : final_database first
              = Some (match d with
                      | Some t => t
                      | None => []
                      end ++ rows_of unicode_alnum events1)).
  { unfold first, Setup.start_syslog_server.
    cbn [init_database final_database].
    now rewrite on_existing_table, receive_loop_table_rows. }
  unfold second. rewrite F. unfold Setup.start_syslog_server.
  set (t1 := match d with
             | Some t => t
             | None => []
             end ++ rows_of unicode_alnum events1).
  assert (E : init_database init2 (Some t1)
              = (Some t1, snd (init_database init2 (Some t1))))
    by (destruct init2; reflexivity).
  rewrite E. cbn [final_database].
  rewrite on_existing_table, receive_loop_table_rows. cbn [db_table].
  unfold t1. now rewrite <- app_assoc.
Qed.

End Server.

End SetupFacts.

(** ** Whole runs of the poller, and the two scripts together *)

Module PollerRun.
Import Text Utf8 Regex Store SyslogRead Monitor Vocabulary RunVocabulary.
Import TextFacts ParserFacts ListenerFacts StoreFacts MonitorFacts ListenerRun.
Import MonitorSpec.

Open Scope Z_scope.

Lemma leading_snoc (best r : row) (t : table) :
  str_lt (timestamp (leading best t)) (timestamp r) ->
  leading best (t ++ [r]) = r.
Proof.
  revert best; induction t as [|x t IH]; intros best H.
  - cbn [app leading] in *. apply str_ltb_lt in H. now rewrite H.
  - cbn [app leading] in *.
    destruct (str_ltb (timestamp best) (timestamp x)); now apply IH.
Qed.

Lemma select_latest_snoc (t : table) (r : row) :
  (forall q, In q t -> str_lt (timestamp q) (timestamp r)) ->
  select_latest (t ++ [r]) = Some r.
Proof.
  intros H. destruct t as [|b t]; [reflexivity|].
  cbn [app select_latest]. f_equal. apply leading_snoc.
  apply H. apply leading_in.
Qed.

Lemma count_snoc (t : table) (r : row) : count (t ++ [r]) = count t + 1.
Proof. unfold count. rewrite length_app. cbn [List.length]. lia. Qed.

Lemma count_nonneg (t : table) : 0 <= count t.
Proof. unfold count. lia. Qed.

(** X12.  Insert and read back: after an insert that goes through with a
    timestamp above those in the table, [query_latest_state] returns the
    inserted row and [get_record_count] one more than before; an insert
    that raises leaves the table as it was. *)
Theorem insert_then_latest_returns_the_row :
  forall (t : table) (now ip : pystr) (port : Z) (state : pystr),
    (forall q, In q t -> str_lt (timestamp q) now) ->
    query_latest_state
      (Available, fst (log_to_database Available now ip port state t))
    = (Some (mkRow now ip port state), [])
    /\ get_record_count
         (Available, fst (log_to_database Available now ip port state t))
       = (count t + 1, [])
    /\ fst (log_to_database Failing now ip port state t) = t.
Proof.
  intros t now ip port state H.
  unfold log_to_database, insert, query_latest_state, get_record_count.
  cbn [fst snd]. rewrite select_latest_snoc by exact H.
  now rewrite count_snoc.
Qed.

(** X13.  The values of the two reads tell a failure apart only for the
    count: [get_record_count] returns [-1] exactly when its read raised,
    a real count being never negative, while [query_latest_state] returns
    [None] both when its read raised and when the table is empty. *)
Theorem read_results_on_failure :
  forall (rd : read),
    (fst (get_record_count rd) = -1 <-> fst rd = Failing)
    /\ (fst rd = Available -> 0 <= fst (get_record_count rd))
    /\ (fst (query_latest_state rd) = None
        <-> fst rd = Failing \/ snd rd = []).
Proof.
  intros [d t]. unfold get_record_count, query_latest_state. cbn [fst snd].
  pose proof (count_nonneg t) as P.
  destruct d; cbn [fst]; repeat split; try congruence; try lia; auto.
  - intros E. right. destruct t; [reflexivity | discriminate].
  - intros [E | ->]; [discriminate | reflexivity].
Qed.


Lemma main_loop_below_mark (ticks : list tick) (s : session) :
  Forall (fun k => count_value k <= last_record_count s) ticks ->
  notifications (snd (main_loop ticks s)) = []
  /\ fst (main_loop ticks s) = s.
Proof.
  induction 1 as [|k rest Hk Hrest [IH1 IH2]]; [split; reflexivity|].
  rewrite main_loop_cons. cbn [fst snd].
  assert (G : ~ guard k s) by (unfold guard; lia).
  rewrite (iteration_guard_closed k s G). cbn [fst snd].
  rewrite notifications_app, (proj1 (error_prints_not_shown _)).
  now rewrite IH1, IH2.
Qed.

(** X15.  [last_record_count] is a high-water mark: it never decreases,
    and while the counts read stay at or below it, as after rows were
    deleted, nothing is shown and the session does not change, whatever
    the tables hold. *)
Theorem last_record_count_is_a_high_water_mark :
  forall (ticks : list tick) (s : session),
    last_record_count s <= last_record_count (fst (main_loop ticks s))
    /\ (Forall (fun k => count_value k <= last_record_count s) ticks ->
        notifications (snd (main_loop ticks s)) = []
        /\ fst (main_loop ticks s) = s).
Proof.
  intros ticks s. split; [apply main_loop_count_le|].
  apply main_loop_below_mark.
Qed.

Lemma main_loop_no_positive_count (ticks : list tick) (s : session) :
  Forall (fun k => count_value k <= 0) ticks ->
  notifications (snd (main_loop ticks s)) = []
  /\ fst (main_loop ticks s) = s.
Proof.
  induction 1 as [|k rest Hk Hrest [IH1 IH2]]; [split; reflexivity|].
  rewrite main_loop_cons. cbn [fst snd].
  assert (G : ~ guard k s) by (unfold guard; lia).
  rewrite (iteration_guard_closed k s G). cbn [fst snd].
  rewrite notifications_app, (proj1 (error_prints_not_shown _)).
  now rewrite IH1, IH2.
Qed.

(** X16.  When the count read at startup raises, the count seen last
    starts at [-1].  While the ticks read no positive count (the count
    read raises or the table is empty) nothing is shown; the first tick
    after them that meets a non-empty table with both reads going through
    shows its latest row, also when that row was there before the poller
    started. *)
Theorem failed_startup_count_shows_the_latest_row :
  forall (t0 t : table) (before : list tick),
    Forall (fun k => count_value k <= 0) before ->
    t <> [] ->
    notifications (main true (Failing, t0) before) = []
    /\ exists r,
         select_latest t = Some r
         /\ notifications (main true (Failing, t0) (before ++ [quiet t]))
            = [r].
Proof.
  intros t0 t before B NE.
  destruct (main_loop_no_positive_count before
              (fst (startup (Failing, t0))) B) as [N S].
  split; [now rewrite main_notifications|].
  destruct (select_latest_nonempty t NE) as [r E].
  exists r. split; [assumption|].
  rewrite main_notifications, main_loop_app. cbn [snd].
  rewrite notifications_app, N, S. cbn [app].
  rewrite (proj1 (startup_session (Failing, t0))).
  rewrite main_loop_cons. cbn [snd main_loop]. rewrite app_nil_r.
  assert (C : 0 < count t).
  { unfold count. destruct t; [congruence | cbn [List.length]; lia]. }
  rewrite (iteration_shown (quiet t) _ r); [reflexivity | | exact E | exact I].
  unfold guard. cbn. lia.
Qed.

(** *** Rows are shown in the order of their timestamps *)

(** The row shown last lies in a part of table [t] that the count seen
    last already covers. *)
Definition seen (s : session) (t : table) : Prop :=
  match last_state s with
  | None => True
  | Some l =>
      exists pre post,
        t = pre ++ post /\ In l pre /\ count pre <= last_record_count s
  end.

Lemma last_app_right (pre post : table) (d : row) :
  post <> [] -> last (pre ++ post) d = last post d.
Proof.
  intros NE. induction pre as [|x pre IH]; [reflexivity|].
  cbn [app]. rewrite <- IH.
  destruct (pre ++ post) eqn:Q; [|reflexivity].
  apply app_eq_nil in Q. destruct Q as [_ Q]. congruence.
Qed.

Lemma seen_extends (s : session) (t extra : table) :
  seen s t -> seen s (t ++ extra).
Proof.
  unfold seen. destruct (last_state s) as [l|]; [|trivial].
  intros [pre [post [-> [I C]]]]. exists pre, (post ++ extra).
  now rewrite app_assoc.
Qed.

Lemma increasing_one (r : row) : increasing [r].
Proof. unfold increasing. repeat constructor. Qed.

Lemma shown_rows_increasing (l : list (table * (db_status * db_status))) :
  forall (t : table) (s : session),
    seen s t -> grows t (map fst l) ->
    increasing (shown_last s ++ notifications (snd (main_loop (ticks_on l) s))).
Proof.
  induction l as [|[t' d] rest IH]; intros t s Sn G.
  - cbn [ticks_on map main_loop snd notifications]. rewrite app_nil_r.
    unfold shown_last. destruct (last_state s);
      [apply increasing_one | constructor].
  - cbn [map fst grows] in G. destruct G as [[extra ->] [Inc G]].
    unfold ticks_on. cbn [map fst snd]. fold (ticks_on rest).
    set (k := on_table (t ++ extra) d).
    rewrite main_loop_cons. cbn [snd]. rewrite notifications_app.
    pose proof (seen_extends s t extra Sn) as Sn'.
    destruct (iteration_outcome k s) as [[N L] | [r [N [L [Gd [Lv Ch]]]]]].
    + rewrite N. cbn [app].
      replace (shown_last s) with (shown_last (fst (iteration k s)))
        by (unfold shown_last; now rewrite L).
      apply (IH (t ++ extra)); [|exact G].
      unfold seen in *. rewrite L. destruct (last_state s) as [l|]; [|trivial].
      destruct Sn' as [pre [post [E [I C]]]]. exists pre, post.
      pose proof (iteration_count_le k s). repeat split; try assumption. lia.
    + rewrite N.
      assert (Cv : count_value k = count (t ++ extra)).
      { destruct (count_value_cases k) as [[_ [V _]] | [_ [V _]]];
          [exact V | destruct Gd as [_ Gd]; rewrite V in Gd; lia]. }
      assert (Sl : select_latest (t ++ extra) = Some r).
      { destruct (latest_value_cases k) as [[_ [V _]] | [_ [V _]]];
          rewrite V in Lv; [exact Lv | discriminate]. }
      assert (Cs : last_record_count (fst (iteration k s)) = count (t ++ extra)).
      { destruct (iteration_count k s) as [[_ E] | [NG _]];
          [now rewrite E | contradiction]. }
      assert (IH' := IH (t ++ extra) (fst (iteration k s))).
      unfold shown_last in IH' at 1. rewrite L in IH'.
      assert (Tail : increasing
                       ([r] ++ notifications
                                 (snd (main_loop (ticks_on rest)
                                         (fst (iteration k s)))))).
      { apply IH'; [|exact G]. unfold seen. rewrite L.
        exists (t ++ extra), []. rewrite app_nil_r.
        repeat split; [apply (select_latest_greatest _ _ Sl) | lia]. }
      unfold shown_last. destruct (last_state s) as [l|] eqn:Ls;
        [|exact Tail].
      cbn [app] in Tail |- *. apply Sorted_cons; [exact Tail|].
      apply HdRel_cons.
      unfold seen in Sn'. rewrite Ls in Sn'.
      destruct Sn' as [pre [post [E [I C]]]].
      assert (NE : post <> []).
      { intros ->. rewrite app_nil_r in E. destruct Gd as [Gd _].
        rewrite Cv, E in Gd. lia. }
      assert (NE' : t ++ extra <> []).
      { rewrite E. destruct pre; [exact NE | discriminate]. }
      rewrite (select_latest_increasing _ r NE' Inc) in Sl.
      injection Sl as Sl. rewrite E in Sl, Inc.
      rewrite (last_app_right pre post r NE) in Sl.
      apply (increasing_across pre post l r Inc I).
      rewrite <- Sl. now apply last_in.
Qed.

Lemma increasing_nodup (t : table) : increasing t -> NoDup t.
Proof.
  intros S. apply increasing_strongly in S.
  induction S as [|x l S IH F]; constructor; [|exact IH].
  intros I. rewrite Forall_forall in F.
  exact (str_lt_irrefl _ (F x I)).
Qed.

(** X17.  While the table only grows and its timestamps grow with it, the
    rows are shown in strictly growing order of timestamp, whatever reads
    fail in between; in particular no row is shown twice. *)
Theorem rows_are_shown_in_timestamp_order :
  forall (start : read) (l : list (table * (db_status * db_status))),
    grows (snd start) (map fst l) ->
    increasing (notifications (main true start (ticks_on l)))
    /\ NoDup (notifications (main true start (ticks_on l))).
Proof.
  intros start l G.
  assert (I : increasing (notifications (main true start (ticks_on l)))).
  { rewrite main_notifications.
    pose proof (shown_rows_increasing l (snd start) (fst (startup start))) as H.
    unfold shown_last, seen in H.
    rewrite (proj1 (startup_session start)) in H. cbn [last_state app] in H.
    rewrite (proj1 (startup_session start)). now apply H. }
  split; [exact I | now apply increasing_nodup].
Qed.

(** *** The listener and the poller together *)

Section Together.

Variable unicode_alnum : codepoint -> bool.


(** X19.  Datagrams that store no row (no marker, no field, or a failed
    insert) never lead to a notification: a poller started on the table
    shows nothing on any tick after them. *)
Theorem datagrams_without_row_are_never_shown :
  forall (events : list event) (t : table)
         (ds : list (db_status * db_status)),
    rows_of unicode_alnum events = [] ->
    notifications
      (main true (Available, t)
         (map (on_table (db_table (start_syslog_server unicode_alnum events t)))
            ds))
    = [].
Proof.
  intros events t ds R. unfold start_syslog_server.
  rewrite receive_loop_table_rows, R. cbn [db_table]. rewrite app_nil_r.
  rewrite main_notifications.
  apply main_loop_nothing_new. left.
  rewrite (proj1 (startup_session (Available, t))).
  cbn. lia.
Qed.

End Together.

End PollerRun.

(** *** Whole runs on the sample traffic *)

Module RunSamples.
Import Text Utf8 Regex Store SyslogRead Monitor Vocabulary RunVocabulary.
Import TextFacts ParserFacts ListenerFacts StoreFacts MonitorFacts.
Import ListenerRun DecoderFacts PollerRun.
Import Examples.

Open Scope Z_scope.


Ltac increasing_by_computation :=
  unfold increasing;
  repeat first [apply Sorted_cons | apply Sorted_nil
               | apply HdRel_cons | apply HdRel_nil];
  vm_compute; reflexivity.

Lemma stored_row_of_run_datagram :
  In row1 (db_table idle)
  \/ exists a,
       In (Datagram a) [Datagram (arrives run_datagram ts1 Available)]
       /\ db a = Available
       /\ contains marker (decode (data a)) = true
       /\ parse_operating_state latin1_alnum (decode (data a))
          = Some (operating_state row1)
       /\ operating_state row1 <> []
       /\ Forall (fun c => is_word latin1_alnum c = true) (operating_state row1)
       /\ timestamp row1 = now a
       /\ (ip_address row1, port row1) = addr a.
Proof.
  apply (stored_row_comes_from_a_datagram latin1_alnum
           [Datagram (arrives run_datagram ts1 Available)] idle row1).
  vm_compute. left. reflexivity.
Defined.

Lemma fieldless_datagram_is_only_noted :
  process latin1_alnum (arrives fieldless_datagram ts1 Available) idle
  = {| current_state := current_state idle;
       db_table := db_table idle;
       log := log idle ++ [Info_no_state_found] |}.
Proof.
  apply (relevant_without_field_is_only_noted latin1_alnum
           (arrives fieldless_datagram ts1 Available) idle).
  - vm_compute. reflexivity.
  - intros pre X. apply parse_none_iff. vm_compute. reflexivity.
Defined.

Lemma split_marker_datagram_spells_the_marker :
  contains marker (ascii_part (byte_values split_marker_datagram)) = true.
Proof.
  apply relevant_datagram_spells_the_marker. vm_compute. reflexivity.
Defined.

Lemma insert_row2_then_latest :
  query_latest_state
    (Available,
     fst (log_to_database Available ts2 (fst plc) (snd plc) (str_of "STOP")
            [row1]))
  = (Some row2, []).
Proof.
  refine (proj1 (insert_then_latest_returns_the_row [row1] ts2 (fst plc)
                   (snd plc) (str_of "STOP") _)).
  intros q [<- | []]. vm_compute. reflexivity.
Defined.


Lemma row1_shown_after_failed_startup_count :
  notifications
    (main true (Failing, [row1])
       [on_table [row1] (Failing, Available); quiet []])
  = []
  /\ exists r,
       select_latest [row1] = Some r
       /\ notifications
            (main true (Failing, [row1])
               ([on_table [row1] (Failing, Available); quiet []]
                ++ [quiet [row1]]))
          = [r].
Proof.
  apply (failed_startup_count_shows_the_latest_row [row1] [row1]
           [on_table [row1] (Failing, Available); quiet []]).
  - repeat constructor; vm_compute; discriminate.
  - discriminate.
Defined.

Lemma sample_rows_shown_in_order :
  increasing
    (notifications
       (main true (Available, [])
          (ticks_on [([row1], (Available, Available));
                     ([row1; row2], (Available, Failing));
                     ([row1; row2; row3], (Available, Available))])))
  /\ NoDup
       (notifications
          (main true (Available, [])
             (ticks_on [([row1], (Available, Available));
                        ([row1; row2], (Available, Failing));
                        ([row1; row2; row3], (Available, Available))]))).
Proof.
  apply (rows_are_shown_in_timestamp_order (Available, [])).
  cbn [map fst snd grows]. repeat split.
  - now exists [row1].
  - increasing_by_computation.
  - now exists [row2].
  - increasing_by_computation.
  - now exists [row3].
  - increasing_by_computation.
Defined.


Lemma login_and_fieldless_datagrams_are_never_shown :
  notifications
    (main true (Available, [row1])
       (map (on_table
               (db_table
                  (start_syslog_server latin1_alnum
                     [Datagram (arrives login_datagram ts2 Available);
                      Datagram (arrives fieldless_datagram ts2 Available);
                      Datagram (arrives run_datagram ts3 Failing)]
                     [row1])))
          [(Available, Available); (Available, Available)]))
  = [].
Proof.
  apply datagrams_without_row_are_never_shown. vm_compute. reflexivity.
Defined.

End RunSamples.

(** ** More on whole runs *)

Module MoreRuns.
Import Text Utf8 Regex Store SyslogRead Monitor Vocabulary RunVocabulary.
Import TextFacts ParserFacts ListenerFacts StoreFacts MonitorFacts ListenerRun.
Import MonitorSpec PollerRun.
Import Examples.

Section Parser.

Variable unicode_alnum : codepoint -> bool.

Local Abbreviation parse := (parse_operating_state unicode_alnum).
Local Abbreviation fragment_at := (Vocabulary.fragment_at unicode_alnum).

(** A fragment of [message ++ extra] that starts before a fragment of
    [message] lies within [message]: its token cannot run over the
    opening quote of the later fragment. *)
Lemma earlier_fragment_is_inside (message extra pre X pre' X' : pystr) :
  fragment_at pre X message ->
  fragment_at pre' X' (message ++ extra) ->
  (List.length pre' < List.length pre)%nat ->
  fragment_at pre' X' message.
Proof.
  intros [rest [E [_ [_ [post ->]]]]] [rest' [E' [NE' [W' [post' ->]]]]] L.
  set (key := str_of "newState=") in *.
  assert (Kl : List.length key = 9%nat) by reflexivity.
  (* the opening quote of the later fragment, as a position of the text *)
  assert (Q : nth_error (message ++ extra) (List.length pre + 9)
              = Some dquote).
  { rewrite E, <- !app_assoc.
    rewrite nth_error_app2 by lia.
    replace (List.length pre + 9 - List.length pre)%nat with 9%nat by lia.
    rewrite nth_error_app2 by lia. now rewrite Kl. }
  (* the same position, seen from the earlier fragment *)
  rewrite E' in Q.
  rewrite nth_error_app2 in Q by lia.
  rewrite nth_error_app2 in Q by lia.
  rewrite Kl in Q.
  remember (List.length pre + 9 - List.length pre' - 9)%nat as i eqn:Ei.
  destruct i as [|i]; [lia|]. cbn [nth_error] in Q.
  destruct (Nat.lt_ge_cases i (List.length X')) as [In_ | Out].
  { rewrite nth_error_app1 in Q by assumption.
    apply nth_error_In in Q. rewrite Forall_forall in W'.
    specialize (W' _ Q). rewrite dquote_not_word in W'. discriminate. }
  (* so the earlier fragment ends inside [message] *)
  assert (Len : (List.length (pre' ++ key ++ dquote :: X' ++ [dquote])
                 <= List.length message)%nat).
  { rewrite E. repeat (rewrite length_app || cbn [List.length]).
    rewrite !Kl. lia. }
  assert (S : message ++ extra
              = (pre' ++ key ++ dquote :: X' ++ [dquote]) ++ post').
  { rewrite E'. rewrite <- !app_assoc. cbn [app]. now rewrite <- app_assoc. }
  symmetry in S. apply app_eq_app in S.
  destruct S as [l [[S1 S2] | [S1 S2]]].
  - assert (l = []) as ->.
    { rewrite S1, length_app in Len. destruct l; [reflexivity|].
      cbn [List.length] in Len. lia. }
    rewrite app_nil_r in S1. exists (key ++ dquote :: X' ++ dquote :: []).
    split; [symmetry; exact S1|]. repeat split; try assumption.
    now exists [].
  - exists (key ++ dquote :: X' ++ dquote :: l). split.
    + rewrite S1. rewrite <- !app_assoc. cbn [app]. now rewrite <- app_assoc.
    + repeat split; try assumption. now exists l.
Qed.

(** X20.  The first fragment decides: once [parse_operating_state]
    returns a token for a text, it returns the same token for every
    longer text that starts with it, whatever follows. *)
Theorem text_after_the_token_is_ignored :
  forall (message extra X : pystr),
    parse message = Some X ->
    parse (message ++ extra) = Some X.
Proof.
  intros message extra X P. apply parse_some_iff in P.
  destruct P as [pre [F Least]]. apply parse_some_iff. exists pre. split.
  - destruct F as [rest [-> [NE [W [post ->]]]]].
    exists ((str_of "newState=" ++ dquote :: X ++ dquote :: post) ++ extra).
    split; [symmetry; apply app_assoc|]. repeat split; try assumption.
    exists (post ++ extra). rewrite <- !app_assoc. cbn [app].
    now rewrite <- app_assoc.
  - intros pre' X' F'.
    destruct (Nat.le_gt_cases (List.length pre) (List.length pre'))
      as [Le | Lt]; [exact Le|].
    pose proof (earlier_fragment_is_inside _ _ _ _ _ _ F F' Lt) as Fm.
    exact (Least pre' X' Fm).
Qed.

End Parser.

Open Scope Z_scope.

Lemma main_loop_after_each (rows : list row) :
  forall (t : table) (s : session),
    increasing (t ++ rows) ->
    last_record_count s = count t ->
    (forall l, last_state s = Some l -> In l t) ->
    notifications (snd (main_loop (tick_after_each t rows) s)) = rows.
Proof.
  induction rows as [|r rest IH]; intros t s Inc C Ls; [reflexivity|].
  cbn [tick_after_each]. rewrite main_loop_cons. cbn [snd].
  assert (Below : forall q, In q t -> str_lt (timestamp q) (timestamp r)).
  { intros q I. apply (increasing_across t (r :: rest) q r Inc I). now left. }
  assert (Sh : iteration (quiet (t ++ [r])) s
               = ({| last_record_count := count_value (quiet (t ++ [r]));
                     last_state := Some r |}, [Display r])).
  { apply iteration_shown.
    - unfold guard, count_value, quiet, get_record_count.
      cbn [count_read fst snd]. rewrite count_snoc, C.
      pose proof (count_nonneg t). lia.
    - unfold latest_value, quiet, query_latest_state.
      cbn [latest_read fst snd]. now apply select_latest_snoc.
    - unfold changed. destruct (last_state s) as [l|] eqn:E; [|exact I].
      left. intros Eq. specialize (Below l (Ls l eq_refl)).
      rewrite Eq in Below. exact (str_lt_irrefl _ Below). }
  rewrite Sh. cbn [fst snd notifications app]. f_equal.
  apply (IH (t ++ [r])).
  - now rewrite <- app_assoc.
  - reflexivity.
  - cbn [last_state]. intros l [= <-]. apply in_or_app. right. now left.
Qed.

(** X21.  A poller that ticks after every insert misses nothing: started
    on table [t], with one tick after each of the rows appended next, all
    reads going through and timestamps growing, it shows exactly those
    rows, each once, in the order of insertion. *)
Theorem polling_after_each_insert_shows_every_row :
  forall (t : table) (rows : list row),
    increasing (t ++ rows) ->
    notifications (main true (Available, t) (tick_after_each t rows)) = rows.
Proof.
  intros t rows Inc. rewrite main_notifications.
  apply main_loop_after_each; [exact Inc | |];
    rewrite (proj1 (startup_session (Available, t))).
  - reflexivity.
  - cbn [last_state]. discriminate.
Qed.

End MoreRuns.

(** *** More runs on the sample traffic *)

Module MoreSamples.
Import Text Utf8 Regex Store SyslogRead Monitor Vocabulary RunVocabulary.
Import StoreFacts MoreRuns.
Import Examples.

Lemma text_after_run_token_is_ignored :
  parse_operating_state latin1_alnum
    (decode run_datagram ++ decode accent_datagram)
  = Some (str_of "RUN").
Proof.
  apply text_after_the_token_is_ignored. vm_compute. reflexivity.
Defined.

Lemma polling_after_each_sample_row :
  notifications
    (main true (Available, [row1]) (tick_after_each [row1] [row2; row3]))
  = [row2; row3].
Proof.
  apply polling_after_each_insert_shows_every_row.
  unfold increasing.
  repeat first [apply Sorted_cons | apply Sorted_nil
               | apply HdRel_cons | apply HdRel_nil];
    vm_compute; reflexivity.
Defined.

End MoreSamples.

(** *** Rows that are shown although they are not the newest insert *)

Module OrderSamples.
Import Text Store Monitor Vocabulary.
Import Examples.

Open Scope Z_scope.

(** The clock steps back between two appends: [row2] is appended first,
    [row1], whose timestamp is lower, second.  The latest-row query
    returns [row2], not the row of the second append. *)
Lemma C5_clock_step_back_returns_older_row :
  appended [row2; row1] [] = [row2; row1]
  /\ last (appended [row2; row1] []) row2 = row1
  /\ str_lt (timestamp row1) (timestamp row2)
  /\ query_latest_state (Available, appended [row2; row1] [])
     = (Some row2, []).
Proof. vm_compute. repeat split. Qed.

(** Two runs that show a row appended before polling began.  In the
    first the count read at startup raises, so the count seen last starts
    at [-1] and the first tick shows [row1], which was in the table at
    startup.  In the second the startup read goes through on [[row2]];
    [row1] is then appended with a lower timestamp, and the tick shows
    [row2]. *)
Lemma C9_row_present_before_startup_is_shown :
  (fst (get_record_count (Failing, [row1])) = -1
   /\ notifications (main true (Failing, [row1]) [quiet [row1]]) = [row1])
  /\ (fst (get_record_count (Available, [row2])) = 1
      /\ notifications (main true (Available, [row2]) [quiet [row2; row1]])
         = [row2]).
Proof. vm_compute. repeat split. Qed.

End OrderSamples.
